(** * Extendible hashing page table (cmudb [ExtendibleHash<K, V>])

    A shallow embedding of [src/hash/extendible_hash_final.cpp] and of the
    invariants its specification states.

    Modelling decisions.
    - [int] and [size_t] values are integers in [Z] ([bucketsize], a
      [size_t] that is only compared with a container size, is an [N]).
      The source computes [1 << d] on a 32 bit [int], which C++ defines only
      for [d < 31]; the model uses the mathematical shift, so it agrees with
      the code on every run whose depths stay below 31 (a directory of
      [2^31] slots is beyond what the code's [int length] can count).
      [reachable_int_range] shows that in a reachable state of global
      depth at most 30 every [int] the operations compute is in range.
      A theorem that concludes that [Insert] returns, or how many passes
      its loop makes, says so only for runs whose depths stay in that
      range and bounds them in its statement.
    - Allocation is taken to succeed: a call is followed as far as
      [push_back], [make_shared] and the map give it memory.
    - [std::shared_ptr<Bucket>] is an address into a store of buckets
      ([nat] index into a list, [None] for [nullptr]); several directory
      slots may hold the same address, and a write through one of them is
      seen through all of them.
    - [std::map<K, V>] is a [gmap K V]; the source names that member
      [pairs] (Find, Remove), [pages] (Insert) and [contents] (header): it
      is one and the same map, called [pairs] here.
    - [std::vector::operator[]] is unchecked: an index outside the vector
      is undefined behaviour, the outcome [Undefined].
    - [while (true)] may run forever: the loop takes a fuel argument and
      yields [OutOfFuel] when it has not left the loop within it.  *)

From stdpp Require Import base numbers list gmap fin_maps.
From Stdlib Require Import ZArith Lia.

Local Open Scope Z_scope.

(** What a call can do.  [Throws] carries the two failures the
    specification's error taxonomy names. *)
Inductive error : Type :=
  | InvalidIndex
  | CapacityExhausted.

Inductive outcome (A : Type) : Type :=
  | Returns (a : A)
  | Throws (e : error)
  | Undefined
  | OutOfFuel.

Arguments Returns {A} a.
Arguments Throws {A} e.
Arguments Undefined {A}.
Arguments OutOfFuel {A}.

(** The values of a 32 bit [int]. *)
Definition int_range (z : Z) : Prop := - 2 ^ 31 ≤ z < 2 ^ 31.

(** [v[i]] on a [std::vector], [None] when [i] is not an index of [v]. *)
Definition vec_at {A : Type} (v : list A) (i : Z) : option A :=
  if decide (0 ≤ i) then v !! Z.to_nat i else None.

Section Model.

Context {K V : Type} `{Countable K}.

(** [std::hash<K>()(key)], a [size_t]. *)
Variable HashKey : K → Z.

Record Bucket : Type := mkBucket {
  localDepth : Z;
  pairs : gmap K V
}.

Record ExtendibleHash : Type := mkExtendibleHash {
  numBuckets : Z;
  bucketsize : N;
  globalDepth : Z;
  bucket_directory : list (option nat);
  store : list Bucket
}.

(** Modelled from the spec: the [Bucket] class this file uses (members
    [localDepth], the map and [latch]) is not declared under [src/]; the
    header there is another version of the class and has [Bucket(int depth)]
    only, while line 15 makes the first bucket without a depth.  The
    specification creates the directory "with globalDepth = 0 and one
    Bucket" and bounds every local depth by the global depth, so the first
    bucket has depth 0. *)
Definition initial_localDepth : Z := 0.

(** Constructor, lines 12-17: one slot, one bucket, depth 0. *)
Definition ExtendibleHash_ctor (size : N) : ExtendibleHash :=
  {| numBuckets := 0 + 1;
     bucketsize := size;
     globalDepth := 0;
     bucket_directory := [Some 0%nat];
     store := [mkBucket initial_localDepth ∅] |}.

(** [HashKey(key) & ((1 << globalDepth) - 1)], lines 60, 77, 101. *)
Definition route (s : ExtendibleHash) (key : K) : Z :=
  Z.land (HashKey key) (Z.shiftl 1 (globalDepth s) - 1).

Definition GetGlobalDepth (s : ExtendibleHash) : Z := globalDepth s.

Definition GetNumBuckets (s : ExtendibleHash) : Z := numBuckets s.

(** Lines 39-43: [bucket_directory[bucket_id] -> localDepth], no check of
    [bucket_id] and none of the pointer. *)
Definition GetLocalDepth (s : ExtendibleHash) (bucket_id : Z) : outcome Z :=
  match vec_at (bucket_directory s) bucket_id with
  | Some (Some p) =>
      match store s !! p with
      | Some b => Returns (localDepth b)
      | None => Undefined
      end
  | Some None => Undefined
  | None => Undefined
  end.

(** Lines 57-70.  [Some v] stands for [true] with [value = v], [None] for
    [false]. *)
Definition Find (s : ExtendibleHash) (key : K) : outcome (option V) :=
  match vec_at (bucket_directory s) (route s key) with
  | None => Undefined
  | Some None => Returns None
  | Some (Some p) =>
      match store s !! p with
      | None => Undefined
      | Some container =>
          match pairs container !! key with
          | Some value => Returns (Some value)
          | None => Returns None
          end
      end
  end.

(** Lines 75-91.  The erase is written [pairs.erase(key)] in the source;
    it is the map of [container] that the line before searched. *)
Definition Remove (s : ExtendibleHash) (key : K)
  : outcome (bool * ExtendibleHash) :=
  match vec_at (bucket_directory s) (route s key) with
  | None => Undefined
  | Some None => Returns (false, s)
  | Some (Some p) =>
      match store s !! p with
      | None => Undefined
      | Some container =>
          match pairs container !! key with
          | Some _ =>
              Returns (true,
                mkExtendibleHash (numBuckets s) (bucketsize s) (globalDepth s)
                  (bucket_directory s)
                  (<[p := mkBucket (localDepth container)
                                   (delete key (pairs container))]> (store s)))
          | None => Returns (false, s)
          end
      end
  end.

(** Lines 113-116: [length] pushes of [bucket_directory[i]]. *)
Definition double_directory (dir : list (option nat)) : list (option nat) :=
  foldl (λ acc i, match acc !! i with
                  | Some slot => acc ++ [slot]
                  | None => acc
                  end)
        dir (seq 0 (length dir)).

(** Lines 120-129: the entries whose hash has the mask bit move to the new
    bucket and are erased from the old one. *)
Definition moved (mask_bit : Z) (m : gmap K V) : gmap K V :=
  filter (λ kv, Z.land (HashKey kv.1) mask_bit ≠ 0) m.

Definition kept (mask_bit : Z) (m : gmap K V) : gmap K V :=
  filter (λ kv, Z.land (HashKey kv.1) mask_bit = 0) m.

(** Lines 131-135: slots that hold [curr] and whose index has the mask bit
    are pointed to the new bucket. *)
Definition repoint (curr : nat) (mask_bit : Z) (newBucket : nat)
    (dir : list (option nat)) : list (option nat) :=
  imap (λ i slot,
          if decide (slot = Some curr ∧ Z.land (Z.of_nat i) mask_bit ≠ 0)
          then Some newBucket else slot) dir.

(** Lines 109-135, one pass through the body of the loop after the test of
    line 105 failed; [b] is the bucket [curr] points to. *)
Definition split (s : ExtendibleHash) (curr : nat) (b : Bucket)
  : ExtendibleHash :=
  let mask_bit := Z.shiftl 1 (localDepth b) in
  let depth := localDepth b + 1 in
  let grow := bool_decide (depth > globalDepth s) in
  let globalDepth' := if grow then globalDepth s + 1 else globalDepth s in
  let dir := if grow then double_directory (bucket_directory s)
             else bucket_directory s in
  let newBucketallocated := length (store s) in
  {| numBuckets := numBuckets s + 1;
     bucketsize := bucketsize s;
     globalDepth := globalDepth';
     bucket_directory := repoint curr mask_bit newBucketallocated dir;
     store := <[curr := mkBucket depth (kept mask_bit (pairs b))]> (store s)
              ++ [mkBucket depth (moved mask_bit (pairs b))] |}.

(** Line 105: the key is there already, or there is room. *)
Definition fits (s : ExtendibleHash) (b : Bucket) (key : K) : bool :=
  bool_decide (is_Some (pairs b !! key))
  || bool_decide (N.of_nat (size (pairs b)) < bucketsize s)%N.

(** Lines 104-136.  [curr] is chosen before the loop and stays what it is:
    the two assignments that route the key again (lines 138-139) come after
    the closing brace of the loop. *)
Fixpoint Insert_loop (fuel : nat) (key : K) (value : V) (curr : nat)
    (s : ExtendibleHash) : outcome ExtendibleHash :=
  match fuel with
  | O => OutOfFuel
  | S fuel' =>
      match store s !! curr with
      | None => Undefined
      | Some b =>
          if fits s b key then
            Returns
              (mkExtendibleHash (numBuckets s) (bucketsize s) (globalDepth s)
                 (bucket_directory s)
                 (<[curr := mkBucket (localDepth b)
                                     (<[key := value]> (pairs b))]> (store s)))
          else Insert_loop fuel' key value curr (split s curr b)
      end
  end.

(** Lines 98-142.  After the loop the source routes the key once more and
    reads that slot into [curr] (lines 138-139); both are locals that
    nothing reads afterwards, so the state the call leaves is the one the
    loop left. *)
Definition Insert (fuel : nat) (s : ExtendibleHash) (key : K) (value : V)
  : outcome ExtendibleHash :=
  match vec_at (bucket_directory s) (route s key) with
  | None => Undefined
  | Some None => Returns s
  | Some (Some curr) =>
      match Insert_loop fuel key value curr s with
      | Returns s' =>
          match vec_at (bucket_directory s') (route s' key) with
          | Some _ => Returns s'
          | None => Undefined
          end
      | stopped => stopped
      end
  end.

(** One call of a public operation that returns.  [Find] and the three
    getters are read-only. *)
Inductive step : ExtendibleHash → ExtendibleHash → Prop :=
  | step_Insert fuel key value s s' :
      Insert fuel s key value = Returns s' → step s s'
  | step_Remove key r s s' :
      Remove s key = Returns (r, s') → step s s'
  | step_Find key r s :
      Find s key = Returns r → step s s.

(** States the public operations can produce from a fresh table. *)
Definition reachable (size : N) (s : ExtendibleHash) : Prop :=
  rtc step (ExtendibleHash_ctor size) s.

(** The addresses the directory holds, and how many different ones. *)
Definition referenced (dir : list (option nat)) : list nat := omap id dir.

Definition distinct_buckets (dir : list (option nat)) : nat :=
  length (remove_dups (referenced dir)).

(** The shape of the directory: every slot holds a bucket of the store
    whose depth [d] is at most [g], and the slots holding that bucket are
    the indices congruent to this one modulo [2^d]. *)
Definition slots_wf (g : Z) (dir : list (option nat)) (st : list Bucket)
  : Prop :=
  ∀ (i : nat) slot, dir !! i = Some slot →
    ∃ p b, slot = Some p ∧ st !! p = Some b ∧
      0 ≤ localDepth b ≤ g ∧
      ∀ j : nat, (j < length dir)%nat →
        (dir !! j = Some (Some p) ↔
         Z.of_nat j mod 2 ^ localDepth b = Z.of_nat i mod 2 ^ localDepth b).

Record wf (s : ExtendibleHash) : Prop := mk_wf {
  wf_depth : 0 ≤ globalDepth s;
  wf_size : Z.of_nat (length (bucket_directory s)) = 2 ^ globalDepth s;
  wf_slots : slots_wf (globalDepth s) (bucket_directory s) (store s);
  wf_count : numBuckets s = Z.of_nat (distinct_buckets (bucket_directory s))
}.

(** The bucket discriminant invariant of the data model: the keys of a
    bucket of depth [d] that the directory holds agree on the low [d] bits
    of their hash. *)
Definition discriminant_ok (s : ExtendibleHash) : Prop :=
  ∀ (i : nat) p b k1 k2,
    bucket_directory s !! i = Some (Some p) → store s !! p = Some b →
    is_Some (pairs b !! k1) → is_Some (pairs b !! k2) →
    HashKey k1 mod 2 ^ localDepth b = HashKey k2 mod 2 ^ localDepth b.

(** No bucket of the directory stores the key. *)
Definition absent (s : ExtendibleHash) (key : K) : Prop :=
  ∀ (i : nat) p b,
    bucket_directory s !! i = Some (Some p) → store s !! p = Some b →
    pairs b !! key = None.

(** The slot the key is routed to holds [nullptr]: the test that guards the
    [else] branches of lines 61, 78 and 102 fails. *)
Definition null_branch (s : ExtendibleHash) (key : K) : Prop :=
  vec_at (bucket_directory s) (route s key) = Some None.

(** The key is stored in the bucket its hash is routed to. *)
Definition routed_home (s : ExtendibleHash) (key : K) : Prop :=
  ∃ p b, vec_at (bucket_directory s) (route s key) = Some (Some p) ∧
         store s !! p = Some b ∧ is_Some (pairs b !! key).

(** The directory a split repoints: the old one, or the old one doubled. *)
Definition grown_directory (s : ExtendibleHash) (b : Bucket)
  : list (option nat) :=
  if bool_decide (localDepth b + 1 > globalDepth s)
  then bucket_directory s ++ bucket_directory s
  else bucket_directory s.

(** What holds of the state each time the loop of [Insert] tests line
    105, for the bucket [curr] chosen before the loop: [curr] has the slots
    whose index is [r] modulo two to its depth, [r] being the low [d0] bits
    the key was routed by, and the slots with those low bits hold [curr] or
    a bucket made since ([L0] and above) that does not have the key. *)
Definition loop_inv (key : K) (curr L0 : nat) (d0 r : Z)
    (s : ExtendibleHash) : Prop :=
  ∃ b (i0 : nat), wf s ∧ store s !! curr = Some b ∧
    bucket_directory s !! i0 = Some (Some curr) ∧
    0 ≤ d0 ≤ localDepth b ∧ 0 ≤ r < 2 ^ d0 ∧
    (curr < L0 ≤ length (store s))%nat ∧
    (∀ j : nat, (j < length (bucket_directory s))%nat →
       (bucket_directory s !! j = Some (Some curr) ↔
        Z.of_nat j mod 2 ^ localDepth b = r)) ∧
    (∀ (j p : nat), bucket_directory s !! j = Some (Some p) →
       Z.of_nat j mod 2 ^ d0 = r →
       p = curr ∨
       ((L0 ≤ p)%nat ∧ ∃ bp, store s !! p = Some bp ∧ pairs bp !! key = None)).

(** The pair is in a bucket that some slot of the directory holds. *)
Definition stored (s : ExtendibleHash) (key : K) (value : V) : Prop :=
  ∃ (i : nat) p b,
    bucket_directory s !! i = Some (Some p) ∧ store s !! p = Some b ∧
    pairs b !! key = Some value.

(** No bucket holds more entries than [bucketsize]. *)
Definition capacity_ok (s : ExtendibleHash) : Prop :=
  ∀ p b, store s !! p = Some b →
         (N.of_nat (size (pairs b)) ≤ bucketsize s)%N.

End Model.

(** The instantiation [ExtendibleHash<int, int>] of line 149, with the
    [std::hash<int>] of the usual standard libraries: the key converted to
    [size_t]. *)
Definition HashKey_int (key : Z) : Z := key mod 2 ^ 64.

Definition IntTable : Type := @ExtendibleHash Z Z _ _.

(** Capacity 1 after [Insert(1, 100)]. *)
Definition one_key : IntTable :=
  {| numBuckets := 1; bucketsize := 1; globalDepth := 0;
     bucket_directory := [Some 0%nat];
     store := [mkBucket 0 {[ 1 := 100 ]}] |}.

(** ... and after [Insert(3, 300)]: key 1 moved to the new bucket 1, key 3
    was put into bucket 0. *)
Definition one_key_split : IntTable :=
  {| numBuckets := 2; bucketsize := 1; globalDepth := 1;
     bucket_directory := [Some 0%nat; Some 1%nat];
     store := [mkBucket 1 {[ 3 := 300 ]}; mkBucket 1 {[ 1 := 100 ]}] |}.

(** ... and after [Remove(1)], which empties bucket 1. *)
Definition one_key_removed : IntTable :=
  {| numBuckets := 2; bucketsize := 1; globalDepth := 1;
     bucket_directory := [Some 0%nat; Some 1%nat];
     store := [mkBucket 1 {[ 3 := 300 ]}; mkBucket 1 ∅] |}.

(** Capacity 2 after [Insert(0, 10)] and [Insert(1, 11)]. *)
Definition two_keys : IntTable :=
  {| numBuckets := 1; bucketsize := 2; globalDepth := 0;
     bucket_directory := [Some 0%nat];
     store := [mkBucket 0 (<[ 1 := 11 ]> {[ 0 := 10 ]})] |}.

(** ... and after [Insert(3, 13)]. *)
Definition two_keys_split : IntTable :=
  {| numBuckets := 2; bucketsize := 2; globalDepth := 1;
     bucket_directory := [Some 0%nat; Some 1%nat];
     store := [mkBucket 1 (<[ 3 := 13 ]> {[ 0 := 10 ]});
               mkBucket 1 {[ 1 := 11 ]}] |}.

(** ... or after [Insert(2, 12)], the example scenario of the
    specification: key 2 agrees with key 0 on bit 0. *)
Definition two_keys_even : IntTable :=
  {| numBuckets := 2; bucketsize := 2; globalDepth := 1;
     bucket_directory := [Some 0%nat; Some 1%nat];
     store := [mkBucket 1 (<[ 2 := 12 ]> {[ 0 := 10 ]});
               mkBucket 1 {[ 1 := 11 ]}] |}.


(** * Arithmetic of masks and low bits *)

Lemma land_pow2 (a d : Z) :
  0 ≤ d → Z.land a (2 ^ d) = if Z.testbit a d then 2 ^ d else 0.
Proof.
  intros Hd. apply Z.bits_inj'. intros n Hn.
  rewrite Z.land_spec, Z.pow2_bits_eqb by done.
  destruct (Z.eqb_spec d n) as [->|Hne].
  - destruct (Z.testbit a n); simpl.
    + by rewrite Z.pow2_bits_eqb, Z.eqb_refl.
    + by rewrite Z.bits_0.
  - rewrite andb_false_r. destruct (Z.testbit a d).
    + rewrite Z.pow2_bits_eqb by done. symmetry. by apply Z.eqb_neq.
    + by rewrite Z.bits_0.
Qed.

Lemma mask_bit_set (a d : Z) :
  0 ≤ d → Z.land a (Z.shiftl 1 d) ≠ 0 ↔ Z.testbit a d = true.
Proof.
  intros Hd. rewrite Z.shiftl_1_l, land_pow2 by done.
  assert (0 < 2 ^ d) by (apply Z.pow_pos_nonneg; lia).
  destruct (Z.testbit a d); split; intros; try done; lia.
Qed.

Lemma mask_bit_clear (a d : Z) :
  0 ≤ d → Z.land a (Z.shiftl 1 d) = 0 ↔ Z.testbit a d = false.
Proof.
  intros Hd. rewrite Z.shiftl_1_l, land_pow2 by done.
  assert (0 < 2 ^ d) by (apply Z.pow_pos_nonneg; lia).
  destruct (Z.testbit a d); split; intros; try done; lia.
Qed.

Lemma low_mask (h g : Z) :
  0 ≤ g → Z.land h (Z.shiftl 1 g - 1) = h mod 2 ^ g.
Proof.
  intros Hg. rewrite Z.shiftl_1_l.
  replace (2 ^ g - 1) with (Z.ones g) by (rewrite Z.ones_equiv; lia).
  by apply Z.land_ones.
Qed.

Lemma mod_pow2_succ (a d : Z) :
  0 ≤ d →
  a mod 2 ^ (d + 1) = a mod 2 ^ d + (if Z.testbit a d then 2 ^ d else 0).
Proof.
  intros Hd. assert (0 < 2 ^ d) by (apply Z.pow_pos_nonneg; lia).
  rewrite Z.pow_add_r, Z.pow_1_r by lia.
  rewrite Z.rem_mul_r by lia.
  destruct (Z.testbit a d) eqn:Hb.
  - apply Z.testbit_true in Hb; [|done]. rewrite Hb. lia.
  - apply Z.testbit_false in Hb; [|done]. rewrite Hb. lia.
Qed.

Lemma congruent_succ (i j d : Z) :
  0 ≤ d →
  j mod 2 ^ (d + 1) = i mod 2 ^ (d + 1) ↔
  j mod 2 ^ d = i mod 2 ^ d ∧ Z.testbit j d = Z.testbit i d.
Proof.
  intros Hd. assert (0 < 2 ^ d) by (apply Z.pow_pos_nonneg; lia).
  rewrite !mod_pow2_succ by done.
  pose proof (Z.mod_pos_bound j (2 ^ d)). pose proof (Z.mod_pos_bound i (2 ^ d)).
  destruct (Z.testbit j d), (Z.testbit i d); split; intros; try lia;
    try (split; [lia|done]); try (destruct_and!; done).
Qed.

Lemma mod_pow2_mod (a d g : Z) :
  0 ≤ d ≤ g → (a mod 2 ^ g) mod 2 ^ d = a mod 2 ^ d.
Proof.
  intros Hd. apply Z.mod_mod_divide.
  exists (2 ^ (g - d)). rewrite <- Z.pow_add_r by lia. f_equal. lia.
Qed.

Lemma testbit_low (r d : Z) : 0 ≤ d → 0 ≤ r < 2 ^ d → Z.testbit r d = false.
Proof.
  intros Hd Hr. apply Z.testbit_false; [done|]. by rewrite Z.div_small.
Qed.

Lemma testbit_high (r d : Z) :
  0 ≤ d → 0 ≤ r < 2 ^ d → Z.testbit (r + 2 ^ d) d = true.
Proof.
  intros Hd Hr. apply Z.testbit_true; [done|].
  replace (r + 2 ^ d) with (r + 1 * 2 ^ d) by lia.
  rewrite Z.div_add by lia. by rewrite Z.div_small.
Qed.

(** * The directory as a list *)

Lemma double_directory_app (dir : list (option nat)) :
  double_directory dir = dir ++ dir.
Proof.
  unfold double_directory.
  cut (∀ n, (n ≤ length dir)%nat →
         foldl (λ acc i, match acc !! i with
                         | Some slot => acc ++ [slot]
                         | None => acc
                         end) dir (seq 0 n) = dir ++ take n dir).
  { intros Hn. rewrite Hn by done. by rewrite firstn_all. }
  induction n as [|n IH]; intros Hle.
  - simpl. by rewrite app_nil_r.
  - rewrite seq_S, foldl_app, IH by lia. simpl.
    destruct (lookup_lt_is_Some_2 dir n) as [slot Hslot]; [lia|].
    rewrite lookup_app_l by lia. rewrite Hslot.
    rewrite (take_S_r _ _ _ Hslot). by rewrite app_assoc.
Qed.

Lemma distinct_same_elements (l1 l2 : list nat) :
  (∀ x, x ∈ l1 ↔ x ∈ l2) →
  length (remove_dups l1) = length (remove_dups l2).
Proof.
  intros Hel. apply Permutation_length, NoDup_Permutation.
  - apply NoDup_remove_dups.
  - apply NoDup_remove_dups.
  - intros x. by rewrite !elem_of_remove_dups.
Qed.

Lemma distinct_one_more (l1 l2 : list nat) (x : nat) :
  x ∉ l1 → (∀ y, y ∈ l2 ↔ y = x ∨ y ∈ l1) →
  length (remove_dups l2) = S (length (remove_dups l1)).
Proof.
  intros Hx Hel.
  change (S (length (remove_dups l1))) with (length (x :: remove_dups l1)).
  apply Permutation_length, NoDup_Permutation.
  - apply NoDup_remove_dups.
  - apply NoDup_cons. split; [by rewrite elem_of_remove_dups|].
    apply NoDup_remove_dups.
  - intros y. rewrite elem_of_cons, !elem_of_remove_dups. apply Hel.
Qed.

Lemma elem_of_referenced (dir : list (option nat)) (p : nat) :
  p ∈ referenced dir ↔ ∃ i : nat, dir !! i = Some (Some p).
Proof.
  unfold referenced. rewrite list_elem_of_omap. split.
  - intros (slot & Hin & Hslot). simpl in Hslot. subst slot.
    by apply list_elem_of_lookup.
  - intros [i Hi]. exists (Some p). split; [|done].
    by apply list_elem_of_lookup_2 with i.
Qed.

Lemma distinct_buckets_double (dir : list (option nat)) :
  distinct_buckets (dir ++ dir) = distinct_buckets dir.
Proof.
  unfold distinct_buckets, referenced. rewrite omap_app.
  apply distinct_same_elements. intros x. rewrite elem_of_app. tauto.
Qed.

Lemma repoint_lookup (curr nb : nat) (mask_bit : Z) (dir : list (option nat))
    (j : nat) :
  repoint curr mask_bit nb dir !! j =
  (λ slot, if decide (slot = Some curr ∧ Z.land (Z.of_nat j) mask_bit ≠ 0)
           then Some nb else slot) <$> dir !! j.
Proof. unfold repoint. by rewrite list_lookup_imap. Qed.

Lemma length_repoint (curr nb : nat) (mask_bit : Z) (dir : list (option nat)) :
  length (repoint curr mask_bit nb dir) = length dir.
Proof. unfold repoint. by rewrite length_imap. Qed.

(** * The shape of the directory is kept by every step *)

Section Shape.

Context {K V : Type} `{Countable K}.

Implicit Types (st : list (@Bucket K V _ _)) (dir : list (option nat)).

Lemma slots_wf_update g dir st p b b' :
  slots_wf g dir st → st !! p = Some b → localDepth b' = localDepth b →
  slots_wf g dir (<[p := b']> st).
Proof.
  intros Hwf Hp Hd i slot Hi.
  destruct (Hwf i slot Hi) as (q & bq & -> & Hq & Hdq & Hiff).
  destruct (decide (p = q)) as [->|Hne].
  - exists q, b'. rewrite list_lookup_insert_eq by (by eapply lookup_lt_Some).
    assert (bq = b) as -> by congruence. rewrite Hd. done.
  - exists q, bq. by rewrite list_lookup_insert_ne.
Qed.

Lemma lookup_double g dir (j : nat) :
  0 ≤ g → Z.of_nat (length dir) = 2 ^ g → (j < length (dir ++ dir))%nat →
  ∃ j' : nat, (j' < length dir)%nat ∧ (dir ++ dir) !! j = dir !! j' ∧
    ∀ d, 0 ≤ d ≤ g → Z.of_nat j mod 2 ^ d = Z.of_nat j' mod 2 ^ d.
Proof.
  intros Hg Hlen Hj. rewrite length_app in Hj.
  destruct (decide (j < length dir)%nat) as [Hlt|Hge].
  - exists j. by rewrite lookup_app_l.
  - exists (j - length dir)%nat. split; [lia|].
    split; [apply lookup_app_r; lia|]. intros d Hd.
    replace (Z.of_nat j) with
      (Z.of_nat (j - length dir) + 2 ^ (g - d) * 2 ^ d).
    + by rewrite Z.mod_add by (apply Z.pow_nonzero; lia).
    + rewrite <- Z.pow_add_r by lia. replace (g - d + d) with g by lia. lia.
Qed.

Lemma slots_wf_double g dir st :
  0 ≤ g → Z.of_nat (length dir) = 2 ^ g →
  slots_wf g dir st → slots_wf (g + 1) (dir ++ dir) st.
Proof.
  intros Hg Hlen Hwf i slot Hi.
  destruct (lookup_double g dir i Hg Hlen) as (i' & Hi' & Hlook & Hmod).
  { by eapply lookup_lt_Some. }
  rewrite Hlook in Hi.
  destruct (Hwf i' slot Hi) as (p & b & -> & Hp & Hd & Hiff).
  exists p, b. repeat split; [done|lia|lia|..].
  - intros Hj'. destruct (lookup_double g dir j Hg Hlen) as (j' & ? & Hlj & Hmj);
      [done|].
    rewrite Hlj in Hj'. rewrite Hmj, Hmod by lia. by apply Hiff.
  - intros Heq. destruct (lookup_double g dir j Hg Hlen) as (j' & ? & Hlj & Hmj);
      [done|].
    rewrite Hlj. apply Hiff; [done|]. by rewrite <- Hmj, <- Hmod by lia.
Qed.

Lemma repoint_holds (curr nb : nat) (d : Z) dir (j q : nat) :
  0 ≤ d → (∀ j' : nat, dir !! j' ≠ Some (Some nb)) →
  repoint curr (Z.shiftl 1 d) nb dir !! j = Some (Some q) ↔
    (q = nb ∧ dir !! j = Some (Some curr) ∧
     Z.testbit (Z.of_nat j) d = true) ∨
    (q ≠ nb ∧ dir !! j = Some (Some q) ∧
     (q = curr → Z.testbit (Z.of_nat j) d = false)).
Proof.
  intros Hd Hfresh. rewrite repoint_lookup. specialize (Hfresh j).
  destruct (dir !! j) as [slot|] eqn:Hj; simpl;
    [|split; [done|intros [(_ & ? & _)|(_ & ? & _)]; done]].
  case_decide as Hc.
  - destruct Hc as [-> Hbit]. apply mask_bit_set in Hbit; [|done].
    split; [intros [= <-]; left; done|].
    intros [(-> & _ & _)|(Hne & Heq & Hclr)]; [done|].
    simplify_eq. rewrite Hclr in Hbit; done.
  - split.
    + intros [= ->]. right. split; [congruence|]. split; [done|].
      intros ->. apply not_true_is_false. intros Hbit. apply Hc.
      split; [done|]. by apply mask_bit_set.
    + intros [(-> & Heq & Hbit)|(Hne & Heq & Hclr)]; [|congruence].
      exfalso. apply Hc. simplify_eq. split; [done|]. by apply mask_bit_set.
Qed.

Section SplitShape.

Variables (g : Z) (dir : list (option nat)) (st : list (@Bucket K V _ _)).
Variables (curr i0 : nat) (b b1 b2 : @Bucket K V _ _).

Hypothesis Hg : 0 ≤ g.
Hypothesis Hlen : Z.of_nat (length dir) = 2 ^ g.
Hypothesis Hwf : slots_wf g dir st.
Hypothesis Hi0 : dir !! i0 = Some (Some curr).
Hypothesis Hcurr : st !! curr = Some b.
Hypothesis Hroom : localDepth b + 1 ≤ g.
Hypothesis Hb1 : localDepth b1 = localDepth b + 1.
Hypothesis Hb2 : localDepth b2 = localDepth b + 1.

Let d := localDepth b.
Let nb := length st.
Let dir' := repoint curr (Z.shiftl 1 d) nb dir.
Let st' := <[curr := b1]> st ++ [b2].

Lemma split_depth_nonneg : 0 ≤ d.
Proof.
  destruct (Hwf i0 _ Hi0) as (p & bp & ? & Hp & Hdp & _). simplify_eq.
  unfold d. lia.
Qed.

Lemma split_holds_curr (j : nat) :
  (j < length dir)%nat →
  dir !! j = Some (Some curr) ↔
  Z.of_nat j mod 2 ^ d = Z.of_nat i0 mod 2 ^ d.
Proof.
  intros Hj. destruct (Hwf i0 _ Hi0) as (p & bp & ? & Hp & Hdp & Hiff).
  simplify_eq. by apply Hiff.
Qed.

Lemma split_fresh (j : nat) : dir !! j ≠ Some (Some nb).
Proof.
  intros Hj. destruct (Hwf j _ Hj) as (p & bp & ? & Hp & _). simplify_eq.
  apply lookup_lt_Some in Hp. lia.
Qed.

Lemma split_curr_lt : (curr < length st)%nat.
Proof. by eapply lookup_lt_Some. Qed.

Lemma split_store_new : st' !! nb = Some b2.
Proof.
  unfold st', nb. rewrite lookup_app_r by (rewrite length_insert; lia).
  rewrite length_insert. by replace (length st - length st)%nat with 0%nat by lia.
Qed.

Lemma split_store_curr : st' !! curr = Some b1.
Proof.
  pose proof split_curr_lt. unfold st'.
  rewrite lookup_app_l by (rewrite length_insert; lia).
  by apply list_lookup_insert_eq.
Qed.

Lemma split_store_other (p : nat) (bp : Bucket) :
  p ≠ curr → st !! p = Some bp → st' !! p = Some bp.
Proof.
  intros Hne Hp. unfold st'. pose proof (lookup_lt_Some _ _ _ Hp).
  rewrite lookup_app_l by (rewrite length_insert; lia).
  by rewrite list_lookup_insert_ne.
Qed.

Lemma slots_wf_split : slots_wf g dir' st'.
Proof.
  pose proof split_depth_nonneg as Hd.
  intros i slot Hi. unfold dir' in Hi |- *. rewrite length_repoint.
  assert (i < length dir)%nat as Hilt.
  { apply lookup_lt_Some in Hi. by rewrite length_repoint in Hi. }
  destruct (lookup_lt_is_Some_2 dir i Hilt) as [slot0 Hs0].
  destruct (Hwf i _ Hs0) as (p & bp & -> & Hp & Hdp & Hiff).
  destruct (decide (p = curr)) as [->|Hne].
  - assert (bp = b) as -> by congruence.
    pose proof (proj1 (split_holds_curr i Hilt) Hs0) as Hmodi.
    destruct (Z.testbit (Z.of_nat i) d) eqn:Hbit.
    + assert (slot = Some nb) as ->.
      { assert (repoint curr (Z.shiftl 1 d) nb dir !! i = Some (Some nb)) as Hn
          by (apply repoint_holds; [done|apply split_fresh|]; left; done).
        congruence. }
      exists nb, b2. split; [done|]. split; [apply split_store_new|].
      split; [fold d in Hdp; lia|]. intros j Hj. rewrite Hb2. fold d.
      rewrite repoint_holds by (done || apply split_fresh).
      rewrite congruent_succ, Hbit, Hmodi by done.
      rewrite <- (split_holds_curr j Hj).
      pose proof (split_fresh j). intuition congruence.
    + assert (slot = Some curr) as ->.
      { assert (repoint curr (Z.shiftl 1 d) nb dir !! i = Some (Some curr)) as Hn.
        { apply repoint_holds; [done|apply split_fresh|]. right.
          split; [|done]. pose proof split_curr_lt. unfold nb. lia. }
        congruence. }
      exists curr, b1. split; [done|]. split; [apply split_store_curr|].
      split; [fold d in Hdp; lia|]. intros j Hj. rewrite Hb1. fold d.
      rewrite repoint_holds by (done || apply split_fresh).
      rewrite congruent_succ, Hbit, Hmodi by done.
      rewrite <- (split_holds_curr j Hj).
      pose proof split_curr_lt. unfold nb. intuition (congruence || lia).
  - assert (p ≠ nb) as Hpn by (apply lookup_lt_Some in Hp; unfold nb; lia).
    assert (slot = Some p) as ->.
    { assert (repoint curr (Z.shiftl 1 d) nb dir !! i = Some (Some p)) as Hn
        by (apply repoint_holds; [done|apply split_fresh|]; right; done).
      congruence. }
    exists p, bp. split; [done|]. split; [by apply split_store_other|].
    split; [done|]. intros j Hj.
    rewrite repoint_holds by (done || apply split_fresh).
    rewrite <- (Hiff j Hj). intuition congruence.
Qed.

Lemma split_low_slot :
  ∃ r : nat, dir !! r = Some (Some curr) ∧ Z.testbit (Z.of_nat r) d = false.
Proof.
  pose proof split_depth_nonneg as Hd.
  assert (0 < 2 ^ d) as Hpos by (apply Z.pow_pos_nonneg; lia).
  assert (2 ^ d < 2 ^ g) as Hlt by (apply Z.pow_lt_mono_r; unfold d; lia).
  pose proof (Z.mod_pos_bound (Z.of_nat i0) (2 ^ d) Hpos) as Hr.
  exists (Z.to_nat (Z.of_nat i0 mod 2 ^ d)). rewrite Z2Nat.id by lia. split.
  - apply split_holds_curr; [lia|]. rewrite Z2Nat.id by lia.
    by rewrite Z.mod_mod by lia.
  - by apply testbit_low.
Qed.

Lemma split_high_slot :
  ∃ r : nat, dir !! r = Some (Some curr) ∧ Z.testbit (Z.of_nat r) d = true.
Proof.
  pose proof split_depth_nonneg as Hd.
  assert (0 < 2 ^ d) as Hpos by (apply Z.pow_pos_nonneg; lia).
  assert (2 ^ (d + 1) ≤ 2 ^ g) as Hle by (apply Z.pow_le_mono_r; unfold d; lia).
  rewrite Z.pow_add_r, Z.pow_1_r in Hle by lia.
  pose proof (Z.mod_pos_bound (Z.of_nat i0) (2 ^ d) Hpos) as Hr.
  exists (Z.to_nat (Z.of_nat i0 mod 2 ^ d + 2 ^ d)).
  rewrite Z2Nat.id by lia. split.
  - apply split_holds_curr; [lia|]. rewrite Z2Nat.id by lia.
    replace (Z.of_nat i0 mod 2 ^ d + 2 ^ d)
      with (Z.of_nat i0 mod 2 ^ d + 1 * 2 ^ d) by lia.
    rewrite Z.mod_add by lia. by rewrite Z.mod_mod by lia.
  - by apply testbit_high.
Qed.

Lemma split_keeps_curr : ∃ r : nat, dir' !! r = Some (Some curr).
Proof.
  destruct split_low_slot as (r & Hr & Hbit). exists r.
  apply repoint_holds; [apply split_depth_nonneg|apply split_fresh|].
  right. pose proof split_curr_lt. split; [unfold nb; lia|done].
Qed.

Lemma split_referenced (y : nat) :
  y ∈ referenced dir' ↔ y = nb ∨ y ∈ referenced dir.
Proof.
  pose proof split_depth_nonneg as Hd.
  rewrite !elem_of_referenced. split.
  - intros [j Hj]. apply repoint_holds in Hj; [|done|apply split_fresh].
    destruct Hj as [(-> & _)|(_ & Hj & _)]; [by left|right; by exists j].
  - intros [->|[j Hj]].
    + destruct split_high_slot as (r & Hr & Hbit). exists r.
      apply repoint_holds; [done|apply split_fresh|]. by left.
    + destruct (decide (y = curr)) as [->|Hne].
      * apply split_keeps_curr.
      * exists j. apply repoint_holds; [done|apply split_fresh|]. right.
        split; [|done]. intros ->. by apply (split_fresh j).
Qed.

Lemma split_distinct : distinct_buckets dir' = S (distinct_buckets dir).
Proof.
  unfold distinct_buckets. apply distinct_one_more with nb.
  - rewrite elem_of_referenced. intros [j Hj]. by apply (split_fresh j).
  - apply split_referenced.
Qed.

End SplitShape.

End Shape.

(** * Well-formed states *)

Section Invariant.

Context {K V : Type} `{Countable K} (HashKey : K → Z).

Implicit Types (s : @ExtendibleHash K V _ _) (b : @Bucket K V _ _).

Lemma wf_ctor (size : N) : wf (@ExtendibleHash_ctor K V _ _ size).
Proof.
  split; simpl; try done.
  intros i slot Hi. destruct i as [|i]; [|done]. simpl in Hi. simplify_eq.
  exists 0%nat, (mkBucket initial_localDepth ∅).
  repeat split; try done.
  - intros _. destruct j; simpl in *; [done|lia].
  - intros _. destruct j; simpl in *; [done|lia].
Qed.

Lemma wf_store_update s p b b' :
  wf s → store s !! p = Some b → localDepth b' = localDepth b →
  wf (mkExtendibleHash (numBuckets s) (bucketsize s) (globalDepth s)
        (bucket_directory s) (<[p := b']> (store s))).
Proof.
  intros [Hg Hlen Hsl Hcnt] Hp Hd. split; simpl; try done.
  by eapply slots_wf_update.
Qed.

Lemma wf_split s curr b (i0 : nat) :
  wf s → bucket_directory s !! i0 = Some (Some curr) →
  store s !! curr = Some b →
  wf (split HashKey s curr b) ∧
  ∃ r : nat, bucket_directory (split HashKey s curr b) !! r = Some (Some curr).
Proof.
  intros [Hg Hlen Hsl Hcnt] Hi0 Hcurr.
  destruct (Hsl i0 _ Hi0) as (p & bp & Heq & Hp & Hdp & _).
  assert (curr = p) as -> by congruence.
  assert (b = bp) as -> by congruence. clear Heq Hcurr.
  unfold split. rewrite double_directory_app.
  case_bool_decide as Hgrow; simpl.
  - assert (localDepth bp = globalDepth s) as Hdg by lia.
    assert (Z.of_nat (length (bucket_directory s ++ bucket_directory s))
            = 2 ^ (globalDepth s + 1)) as Hlen'.
    { rewrite length_app, Z.pow_add_r, Z.pow_1_r by lia. lia. }
    assert ((bucket_directory s ++ bucket_directory s) !! i0 = Some (Some p))
      as Hi0' by (rewrite lookup_app_l; [done|by eapply lookup_lt_Some]).
    pose proof (slots_wf_double _ _ _ Hg Hlen Hsl) as Hsl'.
    split; [split; simpl|].
    + lia.
    + by rewrite length_repoint.
    + eapply (slots_wf_split (globalDepth s + 1)); eauto; simpl; lia.
    + erewrite (split_distinct (globalDepth s + 1)); eauto; simpl; try lia.
      rewrite distinct_buckets_double. lia.
    + eapply (split_keeps_curr (globalDepth s + 1)); eauto; simpl; lia.
  - split; [split; simpl|].
    + done.
    + by rewrite length_repoint.
    + eapply slots_wf_split; eauto; simpl; lia.
    + erewrite split_distinct; eauto; simpl; lia.
    + eapply split_keeps_curr; eauto; simpl; lia.
Qed.

Lemma wf_Insert_loop fuel key value curr s s' :
  wf s → (∃ i : nat, bucket_directory s !! i = Some (Some curr)) →
  Insert_loop HashKey fuel key value curr s = Returns s' → wf s'.
Proof.
  revert s. induction fuel as [|fuel IH]; intros s Hwf [i Hi] Hrun; [done|].
  simpl in Hrun. destruct (store s !! curr) as [b|] eqn:Hb; [|done].
  destruct (fits s b key).
  - simplify_eq. by eapply wf_store_update.
  - destruct (wf_split s curr b i Hwf Hi Hb) as [Hwf' Hcurr'].
    by eapply IH.
Qed.

Lemma vec_at_Some {A : Type} (v : list A) (i : Z) (x : A) :
  vec_at v i = Some x ↔ 0 ≤ i < Z.of_nat (length v) ∧ v !! Z.to_nat i = Some x.
Proof.
  unfold vec_at. case_decide; split.
  - intros Hx. pose proof (lookup_lt_Some _ _ _ Hx). split; [lia|done].
  - by intros [_ ?].
  - done.
  - intros [? _]. lia.
Qed.

Lemma Insert_Returns_inv fuel s key value s' :
  Insert HashKey fuel s key value = Returns s' →
  (vec_at (bucket_directory s) (route HashKey s key) = Some None ∧ s' = s) ∨
  ∃ curr,
    vec_at (bucket_directory s) (route HashKey s key) = Some (Some curr) ∧
    Insert_loop HashKey fuel key value curr s = Returns s'.
Proof.
  unfold Insert.
  destruct (vec_at _ _) as [[curr|]|] eqn:Hat;
    [|intros [= <-]; by left|done].
  intros Hrun. right. exists curr. split; [done|]. revert Hrun.
  destruct (Insert_loop _ _ _ _ _ _) as [s1| | |]; try done.
  destruct (vec_at (bucket_directory s1) _); [|done]. by intros [= <-].
Qed.

Lemma wf_Insert fuel s key value s' :
  wf s → Insert HashKey fuel s key value = Returns s' → wf s'.
Proof.
  intros Hwf Hrun.
  apply Insert_Returns_inv in Hrun as [[_ ->]|(curr & Hat & Hrun)]; [done|].
  apply vec_at_Some in Hat as [_ Hat]. eapply wf_Insert_loop; eauto.
Qed.

Lemma wf_Remove s key r s' :
  wf s → Remove HashKey s key = Returns (r, s') → wf s'.
Proof.
  intros Hwf Hrun. unfold Remove in Hrun.
  destruct (vec_at _ _) as [[p|]|] eqn:Hat; [|by simplify_eq|done].
  destruct (store s !! p) as [b|] eqn:Hb; [|done].
  destruct (pairs b !! key); simplify_eq; [|done].
  by eapply wf_store_update.
Qed.

Lemma wf_step s s' : wf s → step HashKey s s' → wf s'.
Proof.
  intros Hwf Hstep. destruct Hstep as [fuel key value s s' Hrun|key r s s' Hrun|].
  - by eapply wf_Insert.
  - by eapply wf_Remove.
  - done.
Qed.

Lemma reachable_wf (size : N) s : reachable HashKey size s → wf s.
Proof.
  unfold reachable. intros Hr.
  assert (wf (@ExtendibleHash_ctor K V _ _ size)) as Hwf by apply wf_ctor.
  induction Hr as [|s0 s1 s2 Hstep _ IH]; [done|].
  apply IH. by eapply wf_step.
Qed.

End Invariant.

(** * What the operations guarantee on every table *)

Section Operations.

Context {K V : Type} `{Countable K} (HashKey : K → Z).

Implicit Types (s : @ExtendibleHash K V _ _) (b : @Bucket K V _ _).

Lemma wf_routed s key :
  wf s →
  ∃ p b, vec_at (bucket_directory s) (route HashKey s key) = Some (Some p) ∧
         store s !! p = Some b.
Proof.
  intros [Hg Hlen Hsl _]. unfold route. rewrite low_mask by done.
  assert (0 < 2 ^ globalDepth s) as Hpos by (apply Z.pow_pos_nonneg; lia).
  pose proof (Z.mod_pos_bound (HashKey key) _ Hpos) as Hr.
  destruct (lookup_lt_is_Some_2 (bucket_directory s)
              (Z.to_nat (HashKey key mod 2 ^ globalDepth s))) as [slot Hslot];
    [lia|].
  destruct (Hsl _ _ Hslot) as (p & b & -> & Hp & _).
  exists p, b. split; [|done]. apply vec_at_Some. split; [lia|done].
Qed.

Lemma wf_slot s (i : Z) :
  wf s → 0 ≤ i < Z.of_nat (length (bucket_directory s)) →
  ∃ p b, vec_at (bucket_directory s) i = Some (Some p) ∧
         store s !! p = Some b ∧ 0 ≤ localDepth b ≤ globalDepth s.
Proof.
  intros [Hg Hlen Hsl _] Hi.
  destruct (lookup_lt_is_Some_2 (bucket_directory s) (Z.to_nat i))
    as [slot Hslot]; [lia|].
  destruct (Hsl _ _ Hslot) as (p & b & -> & Hp & Hd & _).
  exists p, b. split; [|done]. apply vec_at_Some. split; [lia|done].
Qed.

Lemma vec_at_outside {A : Type} (v : list A) (i : Z) :
  ¬ (0 ≤ i < Z.of_nat (length v)) → vec_at v i = None.
Proof.
  intros Hout. destruct (vec_at v i) as [x|] eqn:Hx; [|done].
  apply vec_at_Some in Hx as [? _]. lia.
Qed.

Lemma Remove_true_Find s key s' :
  Remove HashKey s key = Returns (true, s') →
  Find HashKey s' key = Returns None.
Proof.
  unfold Remove. intros Hrun.
  destruct (vec_at _ _) as [[p|]|] eqn:Hat; [|by simplify_eq|done].
  destruct (store s !! p) as [b|] eqn:Hb; [|done].
  destruct (pairs b !! key) eqn:Hk; simplify_eq.
  unfold Find, route. simpl. unfold route in Hat. rewrite Hat.
  rewrite list_lookup_insert_eq by (by eapply lookup_lt_Some). simpl.
  by rewrite lookup_delete_eq.
Qed.

Lemma Remove_missing s key p b :
  vec_at (bucket_directory s) (route HashKey s key) = Some (Some p) →
  store s !! p = Some b → pairs b !! key = None →
  Remove HashKey s key = Returns (false, s).
Proof. unfold Remove. by intros -> -> ->. Qed.

Lemma split_grows s curr b :
  globalDepth s ≤ globalDepth (split HashKey s curr b) ∧
  numBuckets s ≤ numBuckets (split HashKey s curr b) ∧
  (length (bucket_directory s)
   ≤ length (bucket_directory (split HashKey s curr b)))%nat.
Proof.
  unfold split. simpl. rewrite length_repoint, double_directory_app.
  case_bool_decide; rewrite ?length_app; lia.
Qed.

Lemma Insert_loop_grows fuel key value curr s s' :
  Insert_loop HashKey fuel key value curr s = Returns s' →
  globalDepth s ≤ globalDepth s' ∧ numBuckets s ≤ numBuckets s' ∧
  (length (bucket_directory s) ≤ length (bucket_directory s'))%nat.
Proof.
  revert s. induction fuel as [|fuel IH]; intros s Hrun; [done|].
  simpl in Hrun. destruct (store s !! curr) as [b|]; [|done].
  destruct (fits s b key).
  - simplify_eq. simpl. lia.
  - apply IH in Hrun. pose proof (split_grows s curr b). lia.
Qed.

Lemma step_grows s s' :
  step HashKey s s' →
  globalDepth s ≤ globalDepth s' ∧ numBuckets s ≤ numBuckets s' ∧
  (length (bucket_directory s) ≤ length (bucket_directory s'))%nat.
Proof.
  intros [fuel key value s0 s1 Hrun|key r s0 s1 Hrun|key r s0 _].
  - apply Insert_Returns_inv in Hrun as [[_ ->]|(curr & _ & Hrun)]; [lia|].
    by eapply Insert_loop_grows.
  - unfold Remove in Hrun.
    destruct (vec_at _ _) as [[p|]|]; [|simplify_eq; lia|done].
    destruct (store s0 !! p) as [b|]; [|done].
    destruct (pairs b !! key); simplify_eq; simpl; lia.
  - lia.
Qed.

Lemma distinct_buckets_le (dir : list (option nat)) :
  (distinct_buckets dir ≤ length dir)%nat.
Proof.
  unfold distinct_buckets. trans (length (referenced dir)).
  - apply submseteq_length, NoDup_submseteq; [apply NoDup_remove_dups|].
    intros x. by rewrite elem_of_remove_dups.
  - unfold referenced. induction dir as [|[p|] dir IH]; csimpl in *; lia.
Qed.

(** While the global depth is at most 30, the [int] values the operations
    compute from a reachable state (the two masks, the incremented depths
    and counter, the directory length of line 113) are values of an
    [int]: the unbounded integers of this file and the machine's agree. *)
Lemma reachable_int_range (size : N) s :
  reachable HashKey size s → globalDepth s ≤ 30 →
  int_range (Z.shiftl 1 (globalDepth s) - 1) ∧
  int_range (globalDepth s + 1) ∧
  int_range (numBuckets s + 1) ∧
  int_range (Z.of_nat (length (bucket_directory s))) ∧
  ∀ (i : nat) p b,
    bucket_directory s !! i = Some (Some p) → store s !! p = Some b →
    int_range (Z.shiftl 1 (localDepth b)) ∧ int_range (localDepth b + 1).
Proof.
  intros Hr Hsmall. apply reachable_wf in Hr.
  destruct Hr as [Hg Hlen Hsl Hcnt]. unfold int_range.
  assert (0 < 2 ^ globalDepth s ≤ 2 ^ 30) as Hpow.
  { split; [apply Z.pow_pos_nonneg; lia|apply Z.pow_le_mono_r; lia]. }
  pose proof (distinct_buckets_le (bucket_directory s)) as Hle.
  rewrite Z.shiftl_1_l.
  split; [lia|]. split; [lia|]. split; [lia|]. split; [lia|].
  intros i p b Hi Hp. destruct (Hsl i _ Hi) as (q & bq & ? & Hq & Hd & _).
  simplify_eq. rewrite Z.shiftl_1_l.
  assert (0 < 2 ^ localDepth b ≤ 2 ^ 30).
  { split; [apply Z.pow_pos_nonneg; lia|apply Z.pow_le_mono_r; lia]. }
  lia.
Qed.

(** C4: when [Remove(k)] returns true, the [Find(k)] that follows returns
    not-found; when no bucket of the directory stores [k], [Remove(k)]
    returns false and the table is what it was. *)
Theorem Remove_correct (size : N) s key :
  reachable HashKey size s →
  (∀ s', Remove HashKey s key = Returns (true, s') →
         Find HashKey s' key = Returns None) ∧
  (absent s key → Remove HashKey s key = Returns (false, s)).
Proof.
  intros Hr. apply reachable_wf in Hr. split.
  - intros s'. apply Remove_true_Find.
  - intros Habs. destruct (wf_routed s key Hr) as (p & b & Hat & Hb).
    eapply Remove_missing; eauto.
    apply vec_at_Some in Hat as [_ Hat]. by eapply Habs.
Qed.

(** C5 (amended): for a slot index inside the directory [GetLocalDepth]
    returns the local depth of the bucket that slot holds; for an index
    outside the directory the vector is read unchecked, which raises no
    error and defines no value. *)
Theorem GetLocalDepth_unchecked (size : N) s (bucket_id : Z) :
  reachable HashKey size s →
  (0 ≤ bucket_id < Z.of_nat (length (bucket_directory s)) →
   ∃ p b, vec_at (bucket_directory s) bucket_id = Some (Some p) ∧
          store s !! p = Some b ∧
          GetLocalDepth s bucket_id = Returns (localDepth b)) ∧
  (¬ (0 ≤ bucket_id < Z.of_nat (length (bucket_directory s))) →
   GetLocalDepth s bucket_id = Undefined).
Proof.
  intros Hr. apply reachable_wf in Hr. split.
  - intros Hin. destruct (wf_slot s bucket_id Hr Hin) as (p & b & Hat & Hb & _).
    exists p, b. unfold GetLocalDepth. by rewrite Hat, Hb.
  - intros Hout. unfold GetLocalDepth. by rewrite vec_at_outside.
Qed.

(** C6: in every reachable state [GetNumBuckets] is the number of distinct
    buckets the directory slots hold, slots that share a bucket counted
    once. *)
Theorem GetNumBuckets_distinct (size : N) s :
  reachable HashKey size s →
  GetNumBuckets s = Z.of_nat (distinct_buckets (bucket_directory s)).
Proof. intros Hr. apply reachable_wf in Hr. apply Hr. Qed.

(** C7: in every reachable state the directory has [2^globalDepth]
    slots. *)
Theorem directory_size (size : N) s :
  reachable HashKey size s →
  Z.of_nat (length (bucket_directory s)) = 2 ^ GetGlobalDepth s.
Proof. intros Hr. apply reachable_wf in Hr. apply Hr. Qed.

(** C8: in every reachable state the local depth read through any valid
    slot is at most the global depth. *)
Theorem local_depth_bound (size : N) s (i : Z) :
  reachable HashKey size s →
  0 ≤ i < Z.of_nat (length (bucket_directory s)) →
  ∃ d, GetLocalDepth s i = Returns d ∧ d ≤ GetGlobalDepth s.
Proof.
  intros Hr Hin. apply reachable_wf in Hr.
  destruct (wf_slot s i Hr Hin) as (p & b & Hat & Hb & Hd).
  exists (localDepth b). unfold GetLocalDepth, GetGlobalDepth.
  rewrite Hat, Hb. split; [done|lia].
Qed.

(** C9: along any sequence of operations neither [GetGlobalDepth] nor
    [GetNumBuckets] decreases, and the directory never gets shorter. *)
Theorem depth_and_count_monotone s s' :
  rtc (step HashKey) s s' →
  GetGlobalDepth s ≤ GetGlobalDepth s' ∧
  GetNumBuckets s ≤ GetNumBuckets s' ∧
  (length (bucket_directory s) ≤ length (bucket_directory s'))%nat.
Proof.
  unfold GetGlobalDepth, GetNumBuckets.
  induction 1 as [|s0 s1 s2 Hstep _ IH]; [lia|].
  apply step_grows in Hstep. lia.
Qed.

(** C10: in every reachable state every directory slot holds the address
    of a bucket, never [nullptr], so no key is routed to a null slot and
    the [else] branches of the null tests are never taken. *)
Theorem slots_never_null (size : N) s :
  reachable HashKey size s →
  (∀ (i : nat) slot, bucket_directory s !! i = Some slot →
     ∃ p b, slot = Some p ∧ store s !! p = Some b) ∧
  (∀ key, ¬ null_branch HashKey s key).
Proof.
  intros Hr. apply reachable_wf in Hr. split.
  - intros i slot Hi. destruct (wf_slots s Hr i slot Hi) as (p & b & ? & ? & _).
    by exists p, b.
  - intros key. unfold null_branch.
    destruct (wf_routed s key Hr) as (p & b & -> & _). done.
Qed.

End Operations.

(** * The loop of [Insert] *)

Section Loop.

Context {K V : Type} `{Countable K} (HashKey : K → Z).

Implicit Types (s : @ExtendibleHash K V _ _) (b : @Bucket K V _ _).

Lemma Insert_loop_more_fuel fuel extra key value curr s s' :
  Insert_loop HashKey fuel key value curr s = Returns s' →
  Insert_loop HashKey (fuel + extra) key value curr s = Returns s'.
Proof.
  revert s. induction fuel as [|fuel IH]; intros s Hrun; [done|].
  simpl in *. destruct (store s !! curr) as [b|]; [|done].
  destruct (fits s b key); [done|]. by apply IH.
Qed.

Lemma Insert_loop_never_throws fuel key value curr s e :
  Insert_loop HashKey fuel key value curr s ≠ Throws e.
Proof.
  revert s. induction fuel as [|fuel IH]; intros s; [done|].
  simpl. destruct (store s !! curr) as [b|]; [|done].
  destruct (fits s b key); [done|]. apply IH.
Qed.

Lemma Insert_loop_OutOfFuel fuel s key value curr :
  vec_at (bucket_directory s) (route HashKey s key) = Some (Some curr) →
  Insert_loop HashKey fuel key value curr s = OutOfFuel →
  Insert HashKey fuel s key value = OutOfFuel.
Proof. unfold Insert. by intros -> ->. Qed.

Lemma Insert_loop_Returns fuel s key value curr s' :
  vec_at (bucket_directory s) (route HashKey s key) = Some (Some curr) →
  Insert_loop HashKey fuel key value curr s = Returns s' →
  is_Some (vec_at (bucket_directory s') (route HashKey s' key)) →
  Insert HashKey fuel s key value = Returns s'.
Proof. unfold Insert. by intros -> -> [slot ->]. Qed.

Lemma Insert_fits fuel s key value curr b :
  vec_at (bucket_directory s) (route HashKey s key) = Some (Some curr) →
  store s !! curr = Some b → fits s b key = true →
  Insert HashKey (S fuel) s key value =
  Returns (mkExtendibleHash (numBuckets s) (bucketsize s) (globalDepth s)
             (bucket_directory s)
             (<[curr := mkBucket (localDepth b)
                                 (<[key := value]> (pairs b))]> (store s))).
Proof.
  intros Hat Hb Hfits. apply Insert_loop_Returns with curr; [done|..].
  - simpl. by rewrite Hb, Hfits.
  - unfold route in *. simpl. by rewrite Hat.
Qed.

(** Without a split the round trip holds: the value is found again. *)
Lemma Insert_fits_Find fuel s key value curr b s' :
  vec_at (bucket_directory s) (route HashKey s key) = Some (Some curr) →
  store s !! curr = Some b → fits s b key = true →
  Insert HashKey (S fuel) s key value = Returns s' →
  Find HashKey s' key = Returns (Some value).
Proof.
  intros Hat Hb Hfits Hrun.
  rewrite (Insert_fits fuel s key value curr b Hat Hb Hfits) in Hrun.
  injection Hrun as <-. unfold Find, route. simpl. unfold route in Hat.
  rewrite Hat. rewrite list_lookup_insert_eq by (by eapply lookup_lt_Some).
  simpl. by rewrite lookup_insert_eq.
Qed.

(** The redistribution of a split is by bit [d] of the hash. *)
Lemma moved_lookup (d : Z) (m : gmap K V) k v :
  0 ≤ d →
  moved HashKey (Z.shiftl 1 d) m !! k = Some v ↔
  m !! k = Some v ∧ Z.testbit (HashKey k) d = true.
Proof.
  intros Hd. unfold moved. rewrite map_lookup_filter_Some. simpl.
  by rewrite mask_bit_set.
Qed.

Lemma kept_lookup (d : Z) (m : gmap K V) k v :
  0 ≤ d →
  kept HashKey (Z.shiftl 1 d) m !! k = Some v ↔
  m !! k = Some v ∧ Z.testbit (HashKey k) d = false.
Proof.
  intros Hd. unfold kept. rewrite map_lookup_filter_Some. simpl.
  by rewrite mask_bit_clear.
Qed.

(** A full bucket none of whose keys has a hash bit at or above its depth
    loses nothing in a split, so the loop splits it again and again. *)
Lemma kept_all (d : Z) (m : gmap K V) :
  0 ≤ d →
  (∀ k, is_Some (m !! k) → Z.testbit (HashKey k) d = false) →
  kept HashKey (Z.shiftl 1 d) m = m.
Proof.
  intros Hd Hbits. unfold kept. apply map_filter_id. intros k v Hk. simpl.
  apply mask_bit_clear; [done|]. apply Hbits. by exists v.
Qed.

(** The first [n] passes of the loop on a full bucket that lacks the key
    and none of whose keys has a hash bit at the [n] positions from its
    depth upward: each finds the test of line 105 false and splits, and the
    bucket comes out as it was, [n] deeper. *)
Lemma Insert_loop_cascade (n : nat) key value curr s b :
  store s !! curr = Some b → fits s b key = false → 0 ≤ localDepth b →
  (∀ k, is_Some (pairs b !! k) →
        ∀ j, localDepth b ≤ j < localDepth b + Z.of_nat n →
             Z.testbit (HashKey k) j = false) →
  ∃ s_n,
    (∀ m, Insert_loop HashKey (n + m) key value curr s
          = Insert_loop HashKey m key value curr s_n) ∧
    store s_n !! curr
    = Some (mkBucket (localDepth b + Z.of_nat n) (pairs b)) ∧
    bucketsize s_n = bucketsize s ∧
    numBuckets s_n = numBuckets s + Z.of_nat n.
Proof.
  revert s b. induction n as [|n IH]; intros s b Hb Hfull Hd Hbits.
  - exists s. split; [done|]. split; [|by rewrite Z.add_0_r].
    rewrite Hb. destruct b. simpl. by rewrite Z.add_0_r.
  - assert (kept HashKey (Z.shiftl 1 (localDepth b)) (pairs b) = pairs b)
      as Hkept.
    { apply kept_all; [done|]. intros k Hk. apply Hbits; [done|lia]. }
    destruct (IH (split HashKey s curr b)
                (mkBucket (localDepth b + 1) (pairs b)))
      as (s_n & Hrun & Hcurr & Hsize & Hcount).
    + unfold split. simpl. rewrite Hkept.
      pose proof (lookup_lt_Some _ _ _ Hb).
      rewrite lookup_app_l by (rewrite length_insert; lia).
      by apply list_lookup_insert_eq.
    + done.
    + simpl. lia.
    + simpl. intros k Hk j Hj. apply Hbits; [done|lia].
    + exists s_n. simpl in *. split; [|split; [|split]].
      * intros m. rewrite Hb, Hfull. apply Hrun.
      * rewrite Hcurr. do 2 f_equal. lia.
      * done.
      * lia.
Qed.

Lemma Insert_loop_splitting fuel key value curr s b :
  store s !! curr = Some b → fits s b key = false → 0 ≤ localDepth b →
  (∀ k, is_Some (pairs b !! k) →
        ∀ j, localDepth b ≤ j < localDepth b + Z.of_nat fuel →
             Z.testbit (HashKey k) j = false) →
  Insert_loop HashKey fuel key value curr s = OutOfFuel.
Proof.
  intros Hb Hfull Hd Hbits.
  destruct (Insert_loop_cascade fuel key value curr s b Hb Hfull Hd Hbits)
    as (s_n & Hrun & _).
  specialize (Hrun 0%nat). rewrite Nat.add_0_r in Hrun. by rewrite Hrun.
Qed.


End Loop.

(** * Runs of [ExtendibleHash<int, int>] *)

Lemma one_key_reachable : reachable HashKey_int 1 one_key.
Proof.
  eapply rtc_l; [|apply rtc_refl].
  apply (step_Insert HashKey_int 1 1 100). vm_compute. reflexivity.
Defined.

Lemma one_key_split_steps : rtc (step HashKey_int) one_key one_key_split.
Proof.
  eapply rtc_l; [|apply rtc_refl].
  apply (step_Insert HashKey_int 2 3 300). vm_compute. reflexivity.
Defined.

Lemma one_key_split_reachable : reachable HashKey_int 1 one_key_split.
Proof.
  eapply rtc_trans; [exact one_key_reachable|exact one_key_split_steps].
Defined.

Lemma two_keys_reachable : reachable HashKey_int 2 two_keys.
Proof.
  eapply rtc_l; [apply (step_Insert HashKey_int 1 0 10); reflexivity|].
  eapply rtc_l; [|apply rtc_refl].
  apply (step_Insert HashKey_int 1 1 11). vm_compute. reflexivity.
Defined.



(** The example scenario of the specification: capacity 2, keys 0 and 1,
    then key 2.  One split, depth 1, two buckets, all three keys found. *)
Example spec_scenario :
  Insert HashKey_int 2 two_keys 2 12 = Returns two_keys_even ∧
  GetGlobalDepth two_keys_even = 1 ∧ GetNumBuckets two_keys_even = 2 ∧
  Find HashKey_int two_keys_even 0 = Returns (Some 10) ∧
  Find HashKey_int two_keys_even 1 = Returns (Some 11) ∧
  Find HashKey_int two_keys_even 2 = Returns (Some 12).
Proof. repeat split; vm_compute; reflexivity. Qed.

(** C1: with capacity 1, [Insert(1, 100)] then [Insert(3, 300)] returns,
    and the [Find(3)] that follows returns not-found: the split moved key 1
    to the new bucket, the loop went on with the old bucket and put key 3
    there, while the directory routes key 3 to the new one. *)
Theorem Insert_then_Find_lost :
  Insert HashKey_int 1 (ExtendibleHash_ctor 1) 1 100 = Returns one_key ∧
  (∀ fuel, Insert HashKey_int (2 + fuel) one_key 3 300 = Returns one_key_split) ∧
  Find HashKey_int one_key_split 3 = Returns None.
Proof.
  split; [vm_compute; reflexivity|]. split; [|vm_compute; reflexivity].
  intros fuel. apply Insert_loop_Returns with 0%nat.
  - reflexivity.
  - apply Insert_loop_more_fuel. vm_compute. reflexivity.
  - vm_compute. by eexists.
Qed.

(** C2: with capacity 2 and keys 0 and 1 stored, a state that has the
    discriminant invariant, [Insert(3, 13)] returns a state that has lost
    it: the bucket of depth 1 at slot 0 stores keys 0 and 3, whose hashes
    differ in bit 0, and key 3 is not in the bucket it is routed to. *)
Theorem Insert_breaks_discriminant :
  reachable HashKey_int 2 two_keys ∧
  discriminant_ok HashKey_int two_keys ∧
  (∀ fuel, Insert HashKey_int (2 + fuel) two_keys 3 13 = Returns two_keys_split) ∧
  ¬ discriminant_ok HashKey_int two_keys_split ∧
  ¬ routed_home HashKey_int two_keys_split 3.
Proof.
  split; [apply two_keys_reachable|]. split; [|split; [|split]].
  - intros i p b k1 k2 Hi Hp _ _.
    destruct i as [|i]; [|done]. simpl in Hi. simplify_eq.
    simpl in Hp. simplify_eq. simpl. by rewrite !Z.mod_1_r.
  - intros fuel. apply Insert_loop_Returns with 0%nat.
    + reflexivity.
    + apply Insert_loop_more_fuel. vm_compute. reflexivity.
    + vm_compute. by eexists.
  - intros Hok.
    assert (HashKey_int 0 mod 2 ^ 1 = HashKey_int 3 mod 2 ^ 1) as Hbad.
    { apply (Hok 0%nat 0%nat (mkBucket 1 (<[ 3 := 13 ]> {[ 0 := 10 ]})) 0 3).
      - reflexivity.
      - reflexivity.
      - exists 10. vm_compute. reflexivity.
      - exists 13. vm_compute. reflexivity. }
    vm_compute in Hbad. discriminate Hbad.
  - intros (p & b & Hat & Hb & [v Hv]).
    vm_compute in Hat. injection Hat as <-.
    vm_compute in Hb. injection Hb as <-.
    vm_compute in Hv. discriminate Hv.
Qed.



(** C5, counterexample: slot index 2 of a directory of two slots is read
    unchecked; the call does not fail with an out-of-range error. *)
Lemma GetLocalDepth_no_error :
  reachable HashKey_int 1 one_key_split ∧
  ¬ (0 ≤ 2 < Z.of_nat (length (bucket_directory one_key_split))) ∧
  GetLocalDepth one_key_split 2 = Undefined ∧
  GetLocalDepth one_key_split 2 ≠ Throws InvalidIndex.
Proof.
  split; [apply one_key_split_reachable|]. split; [simpl; lia|]. done.
Qed.

(** * The theorems at concrete tables *)


Lemma Remove_correct_witness :
  reachable HashKey_int 1 one_key_split ∧
  (∀ s', Remove HashKey_int one_key_split 1 = Returns (true, s') →
         Find HashKey_int s' 1 = Returns None) ∧
  (absent one_key_split 1 →
   Remove HashKey_int one_key_split 1 = Returns (false, one_key_split)).
Proof.
  split; [exact one_key_split_reachable|].
  apply (Remove_correct HashKey_int 1 one_key_split 1).
  exact one_key_split_reachable.
Defined.

Lemma GetLocalDepth_unchecked_witness :
  reachable HashKey_int 1 one_key_split ∧
  (0 ≤ 1 < Z.of_nat (length (bucket_directory one_key_split)) →
   ∃ p b, vec_at (bucket_directory one_key_split) 1 = Some (Some p) ∧
          store one_key_split !! p = Some b ∧
          GetLocalDepth one_key_split 1 = Returns (localDepth b)) ∧
  (¬ (0 ≤ 1 < Z.of_nat (length (bucket_directory one_key_split))) →
   GetLocalDepth one_key_split 1 = Undefined).
Proof.
  split; [exact one_key_split_reachable|].
  apply (GetLocalDepth_unchecked HashKey_int 1 one_key_split 1).
  exact one_key_split_reachable.
Defined.

Lemma GetNumBuckets_distinct_witness :
  reachable HashKey_int 1 one_key_split ∧
  GetNumBuckets one_key_split
  = Z.of_nat (distinct_buckets (bucket_directory one_key_split)).
Proof.
  split; [exact one_key_split_reachable|].
  apply (GetNumBuckets_distinct HashKey_int 1 one_key_split).
  exact one_key_split_reachable.
Defined.

Lemma directory_size_witness :
  reachable HashKey_int 1 one_key_split ∧
  Z.of_nat (length (bucket_directory one_key_split))
  = 2 ^ GetGlobalDepth one_key_split.
Proof.
  split; [exact one_key_split_reachable|].
  apply (directory_size HashKey_int 1 one_key_split).
  exact one_key_split_reachable.
Defined.

Lemma local_depth_bound_witness :
  reachable HashKey_int 1 one_key_split ∧
  0 ≤ 1 < Z.of_nat (length (bucket_directory one_key_split)) ∧
  ∃ d, GetLocalDepth one_key_split 1 = Returns d ∧
       d ≤ GetGlobalDepth one_key_split.
Proof.
  split; [exact one_key_split_reachable|]. split; [simpl; lia|].
  apply (local_depth_bound HashKey_int 1 one_key_split 1).
  - exact one_key_split_reachable.
  - simpl. lia.
Defined.

Lemma depth_and_count_monotone_witness :
  rtc (step HashKey_int) one_key one_key_split ∧
  GetGlobalDepth one_key ≤ GetGlobalDepth one_key_split ∧
  GetNumBuckets one_key ≤ GetNumBuckets one_key_split ∧
  (length (bucket_directory one_key)
   ≤ length (bucket_directory one_key_split))%nat.
Proof.
  split; [exact one_key_split_steps|].
  apply (depth_and_count_monotone HashKey_int one_key one_key_split).
  exact one_key_split_steps.
Defined.

Lemma slots_never_null_witness :
  reachable HashKey_int 1 one_key_split ∧
  (∀ (i : nat) slot, bucket_directory one_key_split !! i = Some slot →
     ∃ p b, slot = Some p ∧ store one_key_split !! p = Some b) ∧
  (∀ key, ¬ null_branch HashKey_int one_key_split key).
Proof.
  split; [exact one_key_split_reachable|].
  apply (slots_never_null HashKey_int 1 one_key_split).
  exact one_key_split_reachable.
Defined.

(** * Further properties of the operations *)

Section Entries.

Context {K V : Type} `{Countable K} (HashKey : K → Z).

Implicit Types (s : @ExtendibleHash K V _ _) (b : @Bucket K V _ _).

Lemma route_ctor (size : N) key :
  route HashKey (@ExtendibleHash_ctor K V _ _ size) key = 0.
Proof. unfold route. simpl. by rewrite Z.land_0_r. Qed.

(** X1: a table fresh from the constructor has depth 0, one bucket of
    local depth 0, finds no key and removes none. *)
Theorem fresh_table (size : N) key :
  GetGlobalDepth (@ExtendibleHash_ctor K V _ _ size) = 0 ∧
  GetNumBuckets (@ExtendibleHash_ctor K V _ _ size) = 1 ∧
  GetLocalDepth (@ExtendibleHash_ctor K V _ _ size) 0 = Returns 0 ∧
  Find HashKey (@ExtendibleHash_ctor K V _ _ size) key = Returns None ∧
  Remove HashKey (@ExtendibleHash_ctor K V _ _ size) key
  = Returns (false, ExtendibleHash_ctor size).
Proof.
  repeat split.
  - unfold Find. by rewrite route_ctor.
  - unfold Remove. by rewrite route_ctor.
Qed.

(** X2: in every reachable state [Find] and [Remove] return (no read
    outside the directory, no null or dangling bucket), [Remove] returns
    true exactly when [Find] finds the key, and a [Remove] that returns
    false leaves the table as it was. *)
Theorem Remove_agrees_with_Find (size : N) s key :
  reachable HashKey size s →
  ∃ found r s',
    Find HashKey s key = Returns found ∧
    Remove HashKey s key = Returns (r, s') ∧
    (r = true ↔ is_Some found) ∧
    (r = false → s' = s).
Proof.
  intros Hr. apply reachable_wf in Hr.
  destruct (wf_routed HashKey s key Hr) as (p & b & Hat & Hb).
  unfold Find, Remove. rewrite Hat, Hb.
  destruct (pairs b !! key) as [v|] eqn:Hk.
  - eexists (Some v), true, _. repeat split; done.
  - exists None, false, s. repeat split; done.
Qed.

(** X3: [Remove(k)] does not change what [Find] returns for any other
    key, whatever the state. *)
Theorem Remove_keeps_other_keys s key r s' key' :
  Remove HashKey s key = Returns (r, s') → key' ≠ key →
  Find HashKey s' key' = Find HashKey s key'.
Proof.
  unfold Remove. intros Hrun Hne.
  destruct (vec_at _ _) as [[p|]|] eqn:Hat; [|by simplify_eq|done].
  destruct (store s !! p) as [b|] eqn:Hb; [|done].
  destruct (pairs b !! key) eqn:Hk; simplify_eq; [|done].
  unfold Find, route. cbn [globalDepth bucket_directory store].
  destruct (vec_at (bucket_directory s) (Z.land (HashKey key') _))
    as [[p'|]|]; [|done..].
  destruct (decide (p = p')) as [<-|Hp].
  - rewrite list_lookup_insert_eq by (by eapply lookup_lt_Some).
    rewrite Hb. simpl. by rewrite lookup_delete_ne.
  - by rewrite list_lookup_insert_ne.
Qed.

(** X4: when the bucket the key is routed to holds the key already or has
    room, [Insert] returns without a split: [Find] then returns the new
    value, every other key is found as before, and depth, counter and
    directory are unchanged. *)
Theorem Insert_in_place fuel s key value curr b :
  vec_at (bucket_directory s) (route HashKey s key) = Some (Some curr) →
  store s !! curr = Some b → fits s b key = true →
  ∃ s', Insert HashKey (S fuel) s key value = Returns s' ∧
        Find HashKey s' key = Returns (Some value) ∧
        (∀ key', key' ≠ key → Find HashKey s' key' = Find HashKey s key') ∧
        globalDepth s' = globalDepth s ∧ numBuckets s' = numBuckets s ∧
        bucket_directory s' = bucket_directory s.
Proof.
  intros Hat Hb Hfits.
  pose proof (Insert_fits HashKey fuel s key value curr b Hat Hb Hfits) as Hrun.
  eexists. split; [exact Hrun|].
  split; [exact (Insert_fits_Find HashKey fuel s key value curr b _
                   Hat Hb Hfits Hrun)|].
  split; [|done]. intros key' Hne. unfold Find, route.
  cbn [globalDepth bucket_directory store].
  destruct (vec_at (bucket_directory s) (Z.land (HashKey key') _))
    as [[p'|]|]; [|done..].
  destruct (decide (curr = p')) as [<-|Hp].
  - rewrite list_lookup_insert_eq by (by eapply lookup_lt_Some).
    rewrite Hb. simpl. by rewrite lookup_insert_ne.
  - by rewrite list_lookup_insert_ne.
Qed.

(** X5: [Insert] of a key that its routed bucket already holds overwrites
    the value in place: the bucket keeps its number of entries and its
    local depth. *)
Theorem Insert_overwrite fuel s key value curr b old :
  vec_at (bucket_directory s) (route HashKey s key) = Some (Some curr) →
  store s !! curr = Some b → pairs b !! key = Some old →
  ∃ s' b', Insert HashKey (S fuel) s key value = Returns s' ∧
           store s' !! curr = Some b' ∧
           pairs b' !! key = Some value ∧
           size (pairs b') = size (pairs b) ∧
           localDepth b' = localDepth b.
Proof.
  intros Hat Hb Hold.
  assert (fits s b key = true) as Hfits.
  { unfold fits. rewrite Hold. by rewrite bool_decide_eq_true_2. }
  eexists _, _. split; [by eapply Insert_fits|]. simpl.
  split; [apply list_lookup_insert_eq; by eapply lookup_lt_Some|]. simpl.
  split; [by rewrite lookup_insert_eq|]. split; [|done].
  rewrite map_size_insert. by rewrite Hold.
Qed.

(** X6: doubling the directory (lines 113-116) copies it: slot
    [length + i] holds what slot [i] holds, and the first half stays. *)
Theorem double_directory_copies (dir : list (option nat)) (i : nat) :
  (i < length dir)%nat →
  length (double_directory dir) = (2 * length dir)%nat ∧
  double_directory dir !! i = dir !! i ∧
  double_directory dir !! (length dir + i)%nat = dir !! i.
Proof.
  intros Hi. rewrite double_directory_app, length_app.
  split; [lia|]. split; [by apply lookup_app_l|].
  rewrite lookup_app_r by lia. f_equal. lia.
Qed.

(** X7: in every reachable state two slots hold the same bucket exactly
    when their indices agree on the low [localDepth] bits of that
    bucket. *)
Theorem slots_alias_by_low_bits (size : N) s (i j : nat) p b :
  reachable HashKey size s →
  bucket_directory s !! i = Some (Some p) → store s !! p = Some b →
  (j < length (bucket_directory s))%nat →
  bucket_directory s !! j = Some (Some p) ↔
  Z.of_nat j mod 2 ^ localDepth b = Z.of_nat i mod 2 ^ localDepth b.
Proof.
  intros Hr Hi Hp Hj. apply reachable_wf in Hr.
  destruct (wf_slots s Hr i _ Hi) as (q & bq & ? & Hq & _ & Hiff).
  simplify_eq. by apply Hiff.
Qed.

Lemma steps_grow s s' :
  rtc (step HashKey) s s' →
  globalDepth s ≤ globalDepth s' ∧ numBuckets s ≤ numBuckets s'.
Proof.
  induction 1 as [|s0 s1 s2 Hstep _ IH]; [lia|].
  apply step_grows in Hstep. lia.
Qed.

(** X8: in every reachable state the bucket counter is at least 1 and at
    most the number of directory slots, [2^globalDepth]. *)
Theorem GetNumBuckets_bounds (size : N) s :
  reachable HashKey size s →
  1 ≤ GetNumBuckets s ≤ 2 ^ GetGlobalDepth s.
Proof.
  intros Hr. pose proof (steps_grow _ _ Hr) as [_ Hone]. simpl in Hone.
  apply reachable_wf in Hr. destruct Hr as [Hg Hlen _ Hcnt].
  pose proof (distinct_buckets_le (bucket_directory s)).
  unfold GetNumBuckets, GetGlobalDepth. lia.
Qed.

End Entries.

(** * One pass of the loop, seen from the directory before it *)

Section Pass.

Context {K V : Type} `{Countable K} (HashKey : K → Z).

Implicit Types (s : @ExtendibleHash K V _ _) (b : @Bucket K V _ _).

Lemma split_directory s curr b :
  bucket_directory (split HashKey s curr b)
  = repoint curr (Z.shiftl 1 (localDepth b)) (length (store s))
      (grown_directory s b).
Proof.
  unfold split, grown_directory. simpl. rewrite double_directory_app.
  by case_bool_decide.
Qed.

Lemma split_store_lookup s curr b (p : nat) :
  store s !! curr = Some b →
  store (split HashKey s curr b) !! p =
  if decide (p = curr)
  then Some (mkBucket (localDepth b + 1)
               (kept HashKey (Z.shiftl 1 (localDepth b)) (pairs b)))
  else if decide (p = length (store s))
  then Some (mkBucket (localDepth b + 1)
               (moved HashKey (Z.shiftl 1 (localDepth b)) (pairs b)))
  else store s !! p.
Proof.
  intros Hcurr. pose proof (lookup_lt_Some _ _ _ Hcurr) as Hlt.
  unfold split. simpl. case_decide as Hp; [subst p|case_decide as Hn].
  - rewrite lookup_app_l by (rewrite length_insert; lia).
    by apply list_lookup_insert_eq.
  - subst p. rewrite lookup_app_r by (rewrite length_insert; lia).
    rewrite length_insert.
    by replace (length (store s) - length (store s))%nat with 0%nat by lia.
  - destruct (decide (p < length (store s))%nat) as [Hin|Hout].
    + rewrite lookup_app_l by (rewrite length_insert; lia).
      by rewrite list_lookup_insert_ne.
    + rewrite lookup_app_r by (rewrite length_insert; lia).
      rewrite length_insert. rewrite (lookup_ge_None_2 (store s)) by lia.
      destruct (p - length (store s))%nat as [|n] eqn:Hn'; [lia|done].
Qed.

Lemma grown_shape s curr b (i0 : nat) :
  wf s → bucket_directory s !! i0 = Some (Some curr) →
  store s !! curr = Some b →
  ∃ g1,
    0 ≤ g1 ∧ globalDepth s ≤ g1 ∧
    globalDepth (split HashKey s curr b) = g1 ∧
    Z.of_nat (length (grown_directory s b)) = 2 ^ g1 ∧
    slots_wf g1 (grown_directory s b) (store s) ∧
    grown_directory s b !! i0 = Some (Some curr) ∧
    0 ≤ localDepth b ∧ localDepth b + 1 ≤ g1 ∧
    ∀ j : nat, (j < length (grown_directory s b))%nat →
      ∃ j' : nat, (j' < length (bucket_directory s))%nat ∧
        grown_directory s b !! j = bucket_directory s !! j' ∧
        ∀ d, 0 ≤ d ≤ globalDepth s →
             Z.of_nat j mod 2 ^ d = Z.of_nat j' mod 2 ^ d.
Proof.
  intros [Hg Hlen Hsl _] Hi0 Hcurr.
  destruct (Hsl i0 _ Hi0) as (p & bp & Heq & Hp & Hdp & _).
  assert (curr = p) as -> by congruence.
  assert (b = bp) as -> by congruence. clear Heq Hcurr.
  unfold grown_directory, split. simpl. case_bool_decide as Hgrow.
  - exists (globalDepth s + 1). repeat split; try lia.
    + rewrite length_app, Z.pow_add_r, Z.pow_1_r by lia. lia.
    + by apply slots_wf_double.
    + rewrite lookup_app_l; [done|by eapply lookup_lt_Some].
    + intros j Hj. by apply lookup_double.
  - exists (globalDepth s). repeat split; try done; try lia.
    intros j Hj. by exists j.
Qed.

(** Entries stay where a slot can reach them. *)
Lemma split_stored s curr b (i0 : nat) k v :
  wf s → bucket_directory s !! i0 = Some (Some curr) →
  store s !! curr = Some b →
  stored s k v → stored (split HashKey s curr b) k v.
Proof.
  intros Hwf Hi0 Hcurr (i & p & bp & Hi & Hp & Hk).
  destruct (grown_shape s curr b i0 Hwf Hi0 Hcurr)
    as (g1 & Hg1 & _ & _ & Hlen1 & Hsl1 & Hi01 & Hd & Hroom & Hback).
  assert (∀ j : nat, grown_directory s b !! j ≠ Some (Some (length (store s))))
    as Hfresh.
  { intros j Hj. destruct (Hsl1 j _ Hj) as (q & bq & ? & Hq & _).
    simplify_eq. apply lookup_lt_Some in Hq. lia. }
  assert (grown_directory s b !! i = Some (Some p)) as Hi1.
  { unfold grown_directory. case_bool_decide; [|done].
    rewrite lookup_app_l; [done|by eapply lookup_lt_Some]. }
  pose proof (lookup_lt_Some _ _ _ Hp) as Hplt.
  unfold stored. setoid_rewrite split_directory.
  setoid_rewrite (split_store_lookup s curr b _ Hcurr).
  destruct (decide (p = curr)) as [->|Hne].
  - assert (bp = b) as -> by congruence.
    destruct (Z.testbit (HashKey k) (localDepth b)) eqn:Hbit.
    + destruct (split_high_slot g1 _ _ curr i0 b b b Hg1 Hlen1 Hsl1 Hi01
                  Hcurr Hroom) as (r & Hr & Hrbit).
      exists r, (length (store s)). eexists. split.
      { apply repoint_holds; [done|done|]. by left. }
      rewrite decide_False by lia. rewrite decide_True by done.
      split; [done|]. simpl. by apply moved_lookup.
    + destruct (split_low_slot g1 _ _ curr i0 b b b Hg1 Hlen1 Hsl1 Hi01
                  Hcurr Hroom) as (r & Hr & Hrbit).
      exists r, curr. eexists. split.
      { apply repoint_holds; [done|done|]. right. split; [lia|done]. }
      rewrite decide_True by done. split; [done|]. simpl.
      by apply kept_lookup.
  - exists i, p, bp. split.
    { apply repoint_holds; [done|done|]. right. split; [lia|done]. }
    rewrite decide_False by done. rewrite decide_False by lia. done.
Qed.

Lemma Insert_loop_stored fuel key value curr s s' :
  wf s → (∃ i : nat, bucket_directory s !! i = Some (Some curr)) →
  Insert_loop HashKey fuel key value curr s = Returns s' →
  stored s' key value ∧
  ∀ k v, k ≠ key → stored s k v → stored s' k v.
Proof.
  revert s. induction fuel as [|fuel IH]; intros s Hwf [i0 Hi0] Hrun; [done|].
  simpl in Hrun. destruct (store s !! curr) as [b|] eqn:Hb; [|done].
  destruct (fits s b key).
  - injection Hrun as <-. pose proof (lookup_lt_Some _ _ _ Hb) as Hlt. split.
    + exists i0, curr. eexists. split; [done|]. simpl.
      split; [by apply list_lookup_insert_eq|]. simpl.
      by rewrite lookup_insert_eq.
    + intros k v Hne (i & p & bp & Hi & Hp & Hk).
      destruct (decide (p = curr)) as [->|Hpc].
      * exists i, curr. eexists. split; [done|]. simpl.
        split; [by apply list_lookup_insert_eq|]. simpl.
        rewrite lookup_insert_ne by done. congruence.
      * exists i, p, bp. split; [done|]. simpl.
        by rewrite list_lookup_insert_ne.
  - destruct (wf_split HashKey s curr b i0 Hwf Hi0 Hb) as [Hwf' Hcurr'].
    destruct (IH _ Hwf' Hcurr' Hrun) as [Hnew Hold]. split; [done|].
    intros k v Hne Hst. apply Hold; [done|]. by eapply split_stored.
Qed.

(** X9: an [Insert] that returns from a reachable state has lost
    nothing: the new pair is in a bucket that some directory slot holds,
    and so is every pair of another key that was there before. *)
Theorem Insert_keeps_entries (size : N) s fuel key value s' :
  reachable HashKey size s →
  Insert HashKey fuel s key value = Returns s' →
  stored s' key value ∧
  ∀ k v, k ≠ key → stored s k v → stored s' k v.
Proof.
  intros Hr Hrun. apply reachable_wf in Hr.
  destruct (wf_routed HashKey s key Hr) as (curr & b & Hat & Hb).
  apply Insert_Returns_inv in Hrun as [[Hnull _]|(curr' & Hat' & Hrun)];
    [congruence|].
  assert (curr' = curr) as -> by congruence.
  apply vec_at_Some in Hat as [_ Hat].
  eapply Insert_loop_stored; eauto.
Qed.

Lemma Insert_loop_defined fuel key value curr s :
  wf s → (∃ i : nat, bucket_directory s !! i = Some (Some curr)) →
  Insert_loop HashKey fuel key value curr s ≠ Undefined.
Proof.
  revert s. induction fuel as [|fuel IH]; intros s Hwf [i0 Hi0]; [done|].
  simpl. destruct (wf_slots s Hwf i0 _ Hi0) as (p & b & ? & Hb & _).
  simplify_eq. rewrite Hb. destruct (fits s b key); [done|].
  destruct (wf_split HashKey s p b i0 Hwf Hi0 Hb) as [Hwf' Hcurr'].
  by apply IH.
Qed.

Lemma split_globalDepth s curr b :
  localDepth b ≤ globalDepth s →
  globalDepth (split HashKey s curr b)
  = Z.max (globalDepth s) (localDepth b + 1).
Proof. intros Hd. unfold split. simpl. case_bool_decide; lia. Qed.

Lemma Insert_loop_depth_bound fuel key value curr s b s' :
  wf s → (∃ i : nat, bucket_directory s !! i = Some (Some curr)) →
  store s !! curr = Some b →
  Insert_loop HashKey fuel key value curr s = Returns s' →
  globalDepth s' ≤ Z.max (globalDepth s) (localDepth b + Z.of_nat fuel - 1).
Proof.
  revert s b. induction fuel as [|fuel IH]; intros s b Hwf [i0 Hi0] Hb Hrun;
    [done|].
  simpl in Hrun. rewrite Hb in Hrun.
  destruct (wf_slots s Hwf i0 _ Hi0) as (p & bp & ? & Hp & Hd & _).
  simplify_eq.
  destruct (fits s b key).
  - injection Hrun as <-. simpl. lia.
  - destruct (wf_split HashKey s p b i0 Hwf Hi0 Hb) as [Hwf' Hcurr'].
    pose proof (split_store_lookup s p b p Hb) as Hb1.
    rewrite decide_True in Hb1 by done.
    destruct fuel as [|fuel]; [done|].
    pose proof (IH _ _ Hwf' Hcurr' Hb1 Hrun) as Hle.
    rewrite split_globalDepth in Hle by lia. simpl in Hle. lia.
Qed.

(** X10: within the [int] range [Insert] never reads outside the
    directory and never follows a null or dangling pointer.  From a
    reachable state of global depth at most 30, with no more passes than
    keep the local depth of the routed bucket at 31 or below, it has
    returned a state of global depth at most 30, or it is still
    splitting. *)
Theorem Insert_defined (size : N) s fuel key value curr b :
  reachable HashKey size s → GetGlobalDepth s ≤ 30 →
  vec_at (bucket_directory s) (route HashKey s key) = Some (Some curr) →
  store s !! curr = Some b →
  localDepth b + Z.of_nat fuel ≤ 31 →
  Insert HashKey fuel s key value = OutOfFuel ∨
  ∃ s', Insert HashKey fuel s key value = Returns s' ∧
        GetGlobalDepth s' ≤ 30.
Proof.
  unfold GetGlobalDepth. intros Hr Hg Hat Hb Hfuel. apply reachable_wf in Hr.
  unfold Insert. rewrite Hat.
  assert (∃ i : nat, bucket_directory s !! i = Some (Some curr)) as Href.
  { apply vec_at_Some in Hat as [_ Hat]. by eexists. }
  pose proof (Insert_loop_defined fuel key value curr s Hr Href) as Hdef.
  pose proof (Insert_loop_never_throws HashKey fuel key value curr s) as Hthr.
  destruct (Insert_loop _ _ _ _ _ _) as [s1|e| |] eqn:Hrun.
  - right. exists s1.
    pose proof (wf_Insert_loop HashKey _ _ _ _ _ _ Hr Href Hrun) as Hwf1.
    pose proof (Insert_loop_depth_bound _ _ _ _ _ _ _ Hr Href Hb Hrun).
    destruct (wf_routed HashKey s1 key Hwf1) as (p1 & b1 & -> & _).
    split; [done|lia].
  - by destruct (Hthr e).
  - done.
  - by left.
Qed.

End Pass.

(** * Capacity and counters *)

Section Capacity.

Context {K V : Type} `{Countable K} (HashKey : K → Z).

Implicit Types (s : @ExtendibleHash K V _ _) (b : @Bucket K V _ _).

Lemma capacity_store_update s p b' :
  capacity_ok s → (N.of_nat (size (pairs b')) ≤ bucketsize s)%N →
  capacity_ok (mkExtendibleHash (numBuckets s) (bucketsize s) (globalDepth s)
                 (bucket_directory s) (<[p := b']> (store s))).
Proof.
  intros Hcap Hb' q bq Hq. simpl in *.
  apply list_lookup_insert_Some in Hq as [(-> & <- & _)|[_ Hq]]; [done|].
  by apply (Hcap q).
Qed.

Lemma filter_size_le (P : K * V → Prop) `{∀ x, Decision (P x)}
    (m : gmap K V) :
  (size (filter P m) ≤ size m)%nat.
Proof. apply map_subseteq_size, map_filter_subseteq. Qed.

Lemma capacity_split s curr b :
  capacity_ok s → store s !! curr = Some b →
  capacity_ok (split HashKey s curr b).
Proof.
  intros Hcap Hb p bp Hp. rewrite (split_store_lookup HashKey s curr b p Hb) in Hp.
  pose proof (Hcap curr b Hb) as Hsize.
  change (bucketsize (split HashKey s curr b)) with (bucketsize s).
  repeat case_decide; simplify_eq; simpl.
  - pose proof (filter_size_le
      (λ kv, Z.land (HashKey kv.1) (Z.shiftl 1 (localDepth b)) = 0) (pairs b)).
    unfold kept. lia.
  - pose proof (filter_size_le
      (λ kv, Z.land (HashKey kv.1) (Z.shiftl 1 (localDepth b)) ≠ 0) (pairs b)).
    unfold moved. lia.
  - by apply (Hcap p).
Qed.

Lemma fits_size s b key value :
  fits s b key = true →
  (N.of_nat (size (<[key := value]> (pairs b))) ≤ bucketsize s ∨
   N.of_nat (size (<[key := value]> (pairs b))) = N.of_nat (size (pairs b)))%N.
Proof.
  unfold fits. rewrite map_size_insert. intros Hfits.
  destruct (pairs b !! key) as [old|] eqn:Hk; [by right|].
  apply orb_true_iff in Hfits as [Hin|Hroom].
  - apply bool_decide_eq_true_1 in Hin. by destruct Hin.
  - apply bool_decide_eq_true_1 in Hroom. left. lia.
Qed.

Lemma capacity_Insert_loop fuel key value curr s s' :
  capacity_ok s →
  Insert_loop HashKey fuel key value curr s = Returns s' →
  capacity_ok s' ∧ bucketsize s' = bucketsize s.
Proof.
  revert s. induction fuel as [|fuel IH]; intros s Hcap Hrun; [done|].
  simpl in Hrun. destruct (store s !! curr) as [b|] eqn:Hb; [|done].
  destruct (fits s b key) eqn:Hfits.
  - injection Hrun as <-. split; [|done].
    apply capacity_store_update; [done|]. simpl.
    pose proof (Hcap curr b Hb).
    destruct (fits_size s b key value Hfits); lia.
  - apply IH in Hrun; [done|]. by apply capacity_split.
Qed.

Lemma capacity_step s s' :
  capacity_ok s → step HashKey s s' →
  capacity_ok s' ∧ bucketsize s' = bucketsize s.
Proof.
  intros Hcap Hstep.
  destruct Hstep as [fuel key value s0 s1 Hrun|key r s0 s1 Hrun|key r s0 _];
    [| |by split].
  - apply Insert_Returns_inv in Hrun as [[_ ->]|(curr & _ & Hrun)];
      [by split|].
    by eapply capacity_Insert_loop.
  - unfold Remove in Hrun.
    destruct (vec_at _ _) as [[p|]|]; [|by simplify_eq|done].
    destruct (store s0 !! p) as [b|] eqn:Hb; [|done].
    destruct (pairs b !! key) eqn:Hk; simplify_eq; [|done].
    split; [|done]. apply capacity_store_update; [done|]. simpl.
    pose proof (Hcap p b Hb). rewrite map_size_delete, Hk. lia.
Qed.

Lemma reachable_capacity (size : N) s :
  reachable HashKey size s → capacity_ok s ∧ bucketsize s = size.
Proof.
  unfold reachable. intros Hr.
  assert (capacity_ok (@ExtendibleHash_ctor K V _ _ size) ∧
          bucketsize (@ExtendibleHash_ctor K V _ _ size) = size) as Hinit.
  { split; [|done]. intros p b Hp. destruct p as [|p]; [|done].
    simpl in Hp. injection Hp as <-. simpl. rewrite map_size_empty. lia. }
  induction Hr as [|s0 s1 s2 Hstep _ IH]; [done|].
  apply IH. destruct Hinit as [Hcap Hsz].
  destruct (capacity_step s0 s1 Hcap Hstep) as [? ?]. split; [done|congruence].
Qed.

(** X11: in every reachable state the capacity given to the constructor
    is still [bucketsize], and no bucket holds more entries than that. *)
Theorem buckets_within_capacity (cap : N) s p b :
  reachable HashKey cap s → store s !! p = Some b →
  bucketsize s = cap ∧ (N.of_nat (size (pairs b)) ≤ cap)%N.
Proof.
  intros Hr Hp. destruct (reachable_capacity cap s Hr) as [Hcap Hsz].
  split; [done|]. rewrite <- Hsz. by apply (Hcap p).
Qed.

(** X12: after a [Remove(k)] that returned true, [Insert(k, v)] finds room
    in the same bucket: it returns without a split, leaves depth and
    counter as they were, and [Find(k)] returns [v]. *)
Theorem Remove_then_Insert (cap : N) s key value s1 fuel :
  reachable HashKey cap s →
  Remove HashKey s key = Returns (true, s1) →
  ∃ s2, Insert HashKey (S fuel) s1 key value = Returns s2 ∧
        Find HashKey s2 key = Returns (Some value) ∧
        GetGlobalDepth s2 = GetGlobalDepth s ∧
        GetNumBuckets s2 = GetNumBuckets s.
Proof.
  intros Hr Hrem. destruct (reachable_capacity cap s Hr) as [Hcap _].
  unfold Remove in Hrem.
  destruct (vec_at _ _) as [[p|]|] eqn:Hat; [|by simplify_eq|done].
  destruct (store s !! p) as [b|] eqn:Hb; [|done].
  destruct (pairs b !! key) as [old|] eqn:Hk; simplify_eq.
  pose proof (lookup_lt_Some _ _ _ Hb) as Hlt.
  set (b1 := mkBucket (localDepth b) (delete key (pairs b))).
  set (s1 := mkExtendibleHash (numBuckets s) (bucketsize s) (globalDepth s)
               (bucket_directory s) (<[p := b1]> (store s))).
  assert (vec_at (bucket_directory s1) (route HashKey s1 key) = Some (Some p))
    as Hat1 by done.
  assert (store s1 !! p = Some b1) as Hb1
    by (by apply list_lookup_insert_eq).
  assert (fits s1 b1 key = true) as Hfits.
  { unfold fits. apply orb_true_iff. right. apply bool_decide_eq_true_2.
    simpl. pose proof (Hcap p b Hb). rewrite map_size_delete, Hk.
    assert (size (pairs b) ≠ 0%nat).
    { intros Hz. apply map_size_empty_inv in Hz. rewrite Hz in Hk.
      by rewrite lookup_empty in Hk. }
    lia. }
  pose proof (Insert_fits HashKey fuel s1 key value p b1 Hat1 Hb1 Hfits) as Hrun.
  eexists. split; [exact Hrun|]. split; [|done].
  exact (Insert_fits_Find HashKey fuel s1 key value p b1 _ Hat1 Hb1 Hfits Hrun).
Qed.

Lemma Insert_loop_counts fuel key value curr s b s' :
  store s !! curr = Some b →
  Insert_loop HashKey fuel key value curr s = Returns s' →
  ∃ b', store s' !! curr = Some b' ∧
        numBuckets s' - numBuckets s = localDepth b' - localDepth b ∧
        localDepth b ≤ localDepth b' ∧
        (fits s b key = true → localDepth b' = localDepth b) ∧
        (fits s b key = false → localDepth b < localDepth b').
Proof.
  revert s b. induction fuel as [|fuel IH]; intros s b Hb Hrun; [done|].
  simpl in Hrun. rewrite Hb in Hrun.
  pose proof (lookup_lt_Some _ _ _ Hb) as Hlt.
  destruct (fits s b key) eqn:Hfits.
  - injection Hrun as <-. eexists. simpl.
    split; [by apply list_lookup_insert_eq|]. simpl. repeat split; (lia || done).
  - pose proof (split_store_lookup HashKey s curr b curr Hb) as Hb1.
    rewrite decide_True in Hb1 by done.
    destruct (IH _ _ Hb1 Hrun) as (b' & Hb' & Hcnt & Hle & _).
    exists b'. simpl in *. repeat split; (lia || done).
Qed.

(** X13: an [Insert] that returns has raised the bucket counter by
    exactly as much as it raised the local depth of the bucket the key was
    routed to, one for each split; the counter is unchanged exactly when
    that bucket held the key already or had room. *)
Theorem Insert_counts_splits fuel s key value curr b s' :
  vec_at (bucket_directory s) (route HashKey s key) = Some (Some curr) →
  store s !! curr = Some b →
  Insert HashKey fuel s key value = Returns s' →
  ∃ b', store s' !! curr = Some b' ∧
        GetNumBuckets s' - GetNumBuckets s = localDepth b' - localDepth b ∧
        (GetNumBuckets s' = GetNumBuckets s ↔ fits s b key = true).
Proof.
  intros Hat Hb Hrun.
  apply Insert_Returns_inv in Hrun as [[Hnull _]|(curr' & Hat' & Hrun)];
    [congruence|].
  assert (curr' = curr) as -> by congruence.
  destruct (Insert_loop_counts fuel key value curr s b s' Hb Hrun)
    as (b' & Hb' & Hcnt & Hle & Hsame & Hmore).
  exists b'. unfold GetNumBuckets. split; [done|]. split; [done|].
  destruct (fits s b key); split; intros; try done.
  - specialize (Hsame eq_refl). lia.
  - specialize (Hmore eq_refl). lia.
Qed.

End Capacity.

(** * Where the inserted key ends up *)

Lemma mod_succ_low (j d r : Z) :
  0 ≤ d → 0 ≤ r < 2 ^ d →
  j mod 2 ^ (d + 1) = r ↔ j mod 2 ^ d = r ∧ Z.testbit j d = false.
Proof.
  intros Hd Hr. rewrite mod_pow2_succ by done.
  assert (0 < 2 ^ d) by (apply Z.pow_pos_nonneg; lia).
  pose proof (Z.mod_pos_bound j (2 ^ d)).
  destruct (Z.testbit j d); split; intros; lia.
Qed.

Lemma pow2_le (d g : Z) : 0 ≤ d ≤ g → 0 < 2 ^ d ≤ 2 ^ g.
Proof.
  intros Hd. split; [apply Z.pow_pos_nonneg; lia|apply Z.pow_le_mono_r; lia].
Qed.

Section Exact.

Context {K V : Type} `{Countable K} (HashKey : K → Z).

Implicit Types (s : @ExtendibleHash K V _ _) (b : @Bucket K V _ _).

Lemma fits_false_absent s b key : fits s b key = false → pairs b !! key = None.
Proof.
  unfold fits. intros Hf. apply orb_false_iff in Hf as [Hin _].
  apply bool_decide_eq_false_1 in Hin.
  destruct (pairs b !! key); [|done]. exfalso. apply Hin. by eexists.
Qed.

Lemma loop_inv_split key curr L0 d0 r s b :
  loop_inv key curr L0 d0 r s → store s !! curr = Some b →
  fits s b key = false →
  loop_inv key curr L0 d0 r (split HashKey s curr b).
Proof.
  intros (b0 & i0 & Hwf & Hb0 & Hi0 & Hd0 & Hr & HL & Hc & Hd) Hb Hfits.
  assert (b0 = b) as -> by congruence. clear Hb0.
  apply fits_false_absent in Hfits.
  destruct (wf_split HashKey s curr b i0 Hwf Hi0 Hb) as [Hwf' [i0' Hi0']].
  destruct (grown_shape HashKey s curr b i0 Hwf Hi0 Hb)
    as (g1 & Hg1 & Hgg & _ & Hlen1 & Hsl1 & Hi01 & Hdn & Hroom & Hback).
  destruct (wf_slots s Hwf i0 _ Hi0) as (q & bq & ? & Hq & Hdq & _).
  simplify_eq.
  assert (∀ j : nat, grown_directory s b !! j ≠ Some (Some (length (store s))))
    as Hfresh.
  { intros j Hj. destruct (Hsl1 j _ Hj) as (q' & bq' & ? & Hq' & _).
    simplify_eq. apply lookup_lt_Some in Hq'. lia. }
  pose proof (pow2_le d0 (localDepth b) Hd0) as Hpow.
  exists (mkBucket (localDepth b + 1)
            (kept HashKey (Z.shiftl 1 (localDepth b)) (pairs b))), i0'.
  split; [done|]. split.
  { rewrite (split_store_lookup HashKey s q b q Hb). by rewrite decide_True. }
  split; [done|]. split; [simpl; lia|]. split; [done|]. split.
  { unfold split. simpl. rewrite length_app, length_insert. simpl. lia. }
  split.
  - intros j Hj. rewrite split_directory in Hj |- *.
    rewrite length_repoint in Hj. simpl.
    rewrite repoint_holds by done.
    rewrite mod_succ_low by lia.
    destruct (Hback j Hj) as (j' & Hj' & Hsame & Hmod).
    rewrite Hsame, (Hc j' Hj'), <- (Hmod (localDepth b)) by lia.
    split.
    + intros [(? & _)|(_ & ? & Hbit)]; [lia|]. split; [done|by apply Hbit].
    + intros [? Hbit]. right. split; [lia|]. split; [done|]. by intros _.
  - intros j p Hj Hmodj. rewrite split_directory in Hj.
    assert (j < length (grown_directory s b))%nat as Hjlt.
    { apply lookup_lt_Some in Hj. by rewrite length_repoint in Hj. }
    apply repoint_holds in Hj; [|done|done].
    destruct Hj as [(-> & _ & _)|(Hpn & Hj & _)].
    + right. split; [lia|]. eexists. split.
      { rewrite (split_store_lookup HashKey s q b _ Hb).
        rewrite decide_False by lia. by rewrite decide_True. }
      simpl. unfold moved. apply map_lookup_filter_None. by left.
    + destruct (Hback j Hjlt) as (j' & Hj' & Hsame & Hmod).
      rewrite Hsame in Hj. rewrite (Hmod d0) in Hmodj by lia.
      destruct (Hd j' p Hj Hmodj) as [->|(HLp & bp & Hbp & Hkp)]; [by left|].
      right. split; [done|]. exists bp. split; [|done].
      rewrite (split_store_lookup HashKey s q b _ Hb).
      rewrite decide_False by lia. by rewrite decide_False by done.
Qed.

Lemma loop_inv_Find fuel key value curr L0 d0 s s' :
  loop_inv key curr L0 d0 (HashKey key mod 2 ^ d0) s →
  Insert_loop HashKey fuel key value curr s = Returns s' →
  ∃ b', store s' !! curr = Some b' ∧
    Find HashKey s' key =
    Returns (if decide (HashKey key mod 2 ^ localDepth b'
                        = HashKey key mod 2 ^ d0)
             then Some value else None).
Proof.
  revert s. induction fuel as [|fuel IH]; intros s Hinv Hrun; [done|].
  simpl in Hrun. destruct (store s !! curr) as [b|] eqn:Hb; [|done].
  destruct (fits s b key) eqn:Hfits;
    [|eapply IH; [by apply loop_inv_split|done]].
  injection Hrun as <-.
  destruct Hinv as (b0 & i0 & Hwf & Hb0 & Hi0 & Hd0 & Hr & HL & Hc & Hd).
  assert (b0 = b) as -> by congruence. clear Hb0.
  pose proof (lookup_lt_Some _ _ _ Hb) as Hlt.
  destruct (wf_slots s Hwf i0 _ Hi0) as (q & bq & ? & Hq & Hdq & _).
  simplify_eq.
  eexists. split; [simpl; by apply list_lookup_insert_eq|]. simpl.
  destruct (wf_routed HashKey s key Hwf) as (p & bp & Hat & Hbp).
  unfold Find, route. cbn [globalDepth bucket_directory store].
  unfold route in Hat. rewrite Hat.
  apply vec_at_Some in Hat as [Hrange Hat].
  rewrite low_mask in Hrange, Hat by apply Hwf.
  assert (Z.of_nat (Z.to_nat (HashKey key mod 2 ^ globalDepth s))
          = HashKey key mod 2 ^ globalDepth s) as Hidx by lia.
  pose proof (Hc _ (lookup_lt_Some _ _ _ Hat)) as Hcj.
  rewrite Hidx, mod_pow2_mod in Hcj by lia.
  case_decide as Hlow.
  - assert (p = q) as ->.
    { apply Hcj in Hlow. congruence. }
    rewrite list_lookup_insert_eq by done. simpl.
    by rewrite lookup_insert_eq.
  - assert (p ≠ q) as Hpq.
    { intros ->. apply Hlow. by apply Hcj. }
    rewrite list_lookup_insert_ne by done.
    destruct (Hd _ p Hat) as [->|(_ & bp' & Hbp' & Hkp)]; [|done|].
    { rewrite Hidx. apply mod_pow2_mod. lia. }
    rewrite Hbp'. by rewrite Hkp.
Qed.

(** X14: what [Find(k)] returns after an [Insert(k, v)] that returned, in
    a reachable state: [v] when the hash of [k] has no bit set between the
    local depth the routed bucket had and the one it has after the call,
    and not-found otherwise.  The loop stores [k] in the bucket it chose
    before the first split, which keeps the slots whose index has those
    bits clear. *)
Theorem Insert_then_Find_exact (size : N) s fuel key value s' curr b :
  reachable HashKey size s →
  vec_at (bucket_directory s) (route HashKey s key) = Some (Some curr) →
  store s !! curr = Some b →
  Insert HashKey fuel s key value = Returns s' →
  ∃ b', store s' !! curr = Some b' ∧
    Find HashKey s' key =
    Returns (if decide (HashKey key mod 2 ^ localDepth b'
                        = HashKey key mod 2 ^ localDepth b)
             then Some value else None).
Proof.
  intros Hr Hat Hb Hrun. apply reachable_wf in Hr.
  apply Insert_Returns_inv in Hrun as [[Hnull _]|(curr' & Hat' & Hrun)];
    [congruence|].
  assert (curr' = curr) as -> by congruence. clear Hat'.
  apply (loop_inv_Find fuel key value curr (length (store s)) (localDepth b) s);
    [|done].
  unfold route in Hat. apply vec_at_Some in Hat as [Hrange Hat].
  rewrite low_mask in Hrange, Hat by apply Hr.
  destruct (wf_slots s Hr _ _ Hat) as (q & bq & ? & Hq & Hdq & Hiff).
  simplify_eq.
  assert (Z.of_nat (Z.to_nat (HashKey key mod 2 ^ globalDepth s))
          mod 2 ^ localDepth b = HashKey key mod 2 ^ localDepth b) as Hidx.
  { rewrite Z2Nat.id by lia. apply mod_pow2_mod. lia. }
  pose proof (pow2_le 0 (localDepth b) ltac:(lia)) as Hpos.
  exists b, (Z.to_nat (HashKey key mod 2 ^ globalDepth s)).
  split; [done|]. split; [done|]. split; [done|]. split; [lia|].
  split; [apply Z.mod_pos_bound; lia|]. split.
  { apply lookup_lt_Some in Hb. lia. }
  split.
  - intros j Hj. rewrite (Hiff j Hj). by rewrite Hidx.
  - intros j p Hj Hmodj. left.
    assert (bucket_directory s !! j = Some (Some q)) as Hjq.
    { apply Hiff; [by eapply lookup_lt_Some|]. by rewrite Hidx. }
    congruence.
Qed.

End Exact.

(** * What [Insert] does to the other keys *)

Section Frame.

Context {K V : Type} `{Countable K} (HashKey : K → Z).

Implicit Types (s : @ExtendibleHash K V _ _) (b : @Bucket K V _ _).

Lemma moved_or_kept (d : Z) (m : gmap K V) k :
  0 ≤ d →
  (if Z.testbit (HashKey k) d
   then moved HashKey (Z.shiftl 1 d) m
   else kept HashKey (Z.shiftl 1 d) m) !! k = m !! k.
Proof.
  intros Hd. apply option_eq. intros v.
  destruct (Z.testbit (HashKey k) d) eqn:Hbit.
  - rewrite moved_lookup by done. intuition.
  - rewrite kept_lookup by done. intuition.
Qed.

Lemma split_Find s curr b (i0 : nat) k :
  wf s → bucket_directory s !! i0 = Some (Some curr) →
  store s !! curr = Some b →
  Find HashKey (split HashKey s curr b) k = Find HashKey s k.
Proof.
  intros Hwf Hi0 Hb.
  destruct (wf_split HashKey s curr b i0 Hwf Hi0 Hb) as [Hwf' _].
  destruct (grown_shape HashKey s curr b i0 Hwf Hi0 Hb)
    as (g1 & Hg1 & Hgg & Hg1eq & Hlen1 & Hsl1 & Hi01 & Hdn & Hroom & Hback).
  assert (∀ j : nat, grown_directory s b !! j ≠ Some (Some (length (store s))))
    as Hfresh.
  { intros j Hj. destruct (Hsl1 j _ Hj) as (q' & bq' & ? & Hq' & _).
    simplify_eq. apply lookup_lt_Some in Hq'. lia. }
  destruct (wf_routed HashKey s k Hwf) as (p & bp & Hat & Hbp).
  pose proof (lookup_lt_Some _ _ _ Hbp) as Hplt.
  unfold Find at 2. rewrite Hat, Hbp.
  unfold route in Hat. apply vec_at_Some in Hat as [Hrange Hat].
  rewrite low_mask in Hrange, Hat by apply Hwf.
  pose proof (pow2_le (globalDepth s) g1 ltac:(destruct Hwf; lia)) as Hpg.
  pose proof (Z.mod_pos_bound (HashKey k) (2 ^ g1) ltac:(lia)) as Hj1.
  set (j := Z.to_nat (HashKey k mod 2 ^ g1)).
  assert (Z.of_nat j = HashKey k mod 2 ^ g1) as Hjz by (unfold j; lia).
  assert (grown_directory s b !! j = Some (Some p)) as Hgj.
  { destruct (Hback j ltac:(lia)) as (j' & Hj' & Hsame & Hmod).
    rewrite Hsame. specialize (Hmod (globalDepth s) ltac:(destruct Hwf; lia)).
    rewrite Hjz, mod_pow2_mod in Hmod by (destruct Hwf; lia).
    destruct Hwf as [Hg Hlen _ _].
    rewrite (Z.mod_small (Z.of_nat j')) in Hmod by lia.
    rewrite Hmod, Nat2Z.id in Hat. done. }
  assert (Z.testbit (Z.of_nat j) (localDepth b)
          = Z.testbit (HashKey k) (localDepth b)) as Hbitj.
  { rewrite Hjz. apply Z.mod_pow2_bits_low. lia. }
  assert (vec_at (bucket_directory (split HashKey s curr b))
            (route HashKey (split HashKey s curr b) k)
          = Some (if decide (p = curr ∧ Z.testbit (HashKey k) (localDepth b)
                             = true)
                  then Some (length (store s)) else Some p)) as Hat'.
  { apply vec_at_Some. unfold route. rewrite low_mask, Hg1eq by apply Hwf'.
    rewrite split_directory, length_repoint. split; [lia|]. fold j.
    apply lookup_lt_Some in Hbp.
    case_decide as Hc.
    - destruct Hc as [-> Hbit]. apply repoint_holds; [done|done|]. left.
      by rewrite Hbitj.
    - apply repoint_holds; [done|done|]. right. split; [lia|]. split; [done|].
      intros ->. rewrite Hbitj. apply not_true_is_false. intros Hbit.
      by apply Hc. }
  unfold Find at 1. rewrite Hat'.
  pose proof (moved_or_kept (localDepth b) (pairs b) k Hdn) as Hmk.
  case_decide as Hc.
  - destruct Hc as [-> Hbit]. assert (bp = b) as -> by congruence.
    rewrite (split_store_lookup HashKey s curr b _ Hb).
    rewrite decide_False by lia. rewrite decide_True by done. simpl.
    rewrite Hbit in Hmk. by rewrite Hmk.
  - rewrite (split_store_lookup HashKey s curr b _ Hb).
    destruct (decide (p = curr)) as [->|Hpc].
    + assert (bp = b) as -> by congruence. simpl.
      destruct (Z.testbit (HashKey k) (localDepth b)) eqn:Hbit;
        [by destruct Hc|]. by rewrite Hmk.
    + rewrite decide_False by lia. by rewrite Hbp.
Qed.

Lemma Insert_loop_frame fuel key value curr s s' k :
  wf s → (∃ i : nat, bucket_directory s !! i = Some (Some curr)) →
  Insert_loop HashKey fuel key value curr s = Returns s' → k ≠ key →
  Find HashKey s' k = Find HashKey s k.
Proof.
  revert s. induction fuel as [|fuel IH]; intros s Hwf [i0 Hi0] Hrun Hne;
    [done|].
  simpl in Hrun. destruct (store s !! curr) as [b|] eqn:Hb; [|done].
  destruct (fits s b key).
  - injection Hrun as <-. unfold Find, route.
    cbn [globalDepth bucket_directory store].
    destruct (vec_at (bucket_directory s) (Z.land (HashKey k) _))
      as [[p'|]|]; [|done..].
    destruct (decide (curr = p')) as [<-|Hp].
    + rewrite list_lookup_insert_eq by (by eapply lookup_lt_Some).
      rewrite Hb. simpl. by rewrite lookup_insert_ne.
    + by rewrite list_lookup_insert_ne.
  - destruct (wf_split HashKey s curr b i0 Hwf Hi0 Hb) as [Hwf' Hcurr'].
    rewrite (IH _ Hwf' Hcurr' Hrun Hne). by eapply split_Find.
Qed.

(** X15: from a reachable state, an [Insert(k, v)] that returns leaves
    what [Find] returns for every other key as it was, however often it
    split and doubled the directory. *)
Theorem Insert_keeps_other_keys (size : N) s fuel key value s' k :
  reachable HashKey size s →
  Insert HashKey fuel s key value = Returns s' → k ≠ key →
  Find HashKey s' k = Find HashKey s k.
Proof.
  intros Hr Hrun Hne. apply reachable_wf in Hr.
  apply Insert_Returns_inv in Hrun as [[_ ->]|(curr & Hat & Hrun)]; [done|].
  apply vec_at_Some in Hat as [_ Hat].
  eapply Insert_loop_frame; eauto.
Qed.

End Frame.

(** * When the loop of [Insert] ends *)

Section Ending.

Context {K V : Type} `{Countable K} (HashKey : K → Z).

Implicit Types (s : @ExtendibleHash K V _ _) (b : @Bucket K V _ _).

Lemma kept_smaller (d : Z) (m : gmap K V) k :
  0 ≤ d → is_Some (m !! k) → Z.testbit (HashKey k) d = true →
  (size (kept HashKey (Z.shiftl 1 d) m) < size m)%nat.
Proof.
  intros Hd [v Hk] Hbit.
  assert (kept HashKey (Z.shiftl 1 d) m ⊆ delete k m) as Hsub.
  { apply map_subseteq_spec. intros i x Hi.
    apply kept_lookup in Hi as [Hi Hclr]; [|done].
    rewrite lookup_delete_ne; [done|]. intros ->. congruence. }
  apply map_subseteq_size in Hsub. rewrite map_size_delete, Hk in Hsub.
  assert (size m ≠ 0%nat).
  { intros Hz. apply map_size_empty_inv in Hz. rewrite Hz in Hk.
    by rewrite lookup_empty in Hk. }
  lia.
Qed.

Lemma Insert_loop_S fuel key value curr s b :
  store s !! curr = Some b →
  Insert_loop HashKey (S fuel) key value curr s =
  if fits s b key then
    Returns (mkExtendibleHash (numBuckets s) (bucketsize s) (globalDepth s)
               (bucket_directory s)
               (<[curr := mkBucket (localDepth b)
                                   (<[key := value]> (pairs b))]> (store s)))
  else Insert_loop HashKey fuel key value curr (split HashKey s curr b).
Proof. intros Hb. simpl. by rewrite Hb. Qed.

Lemma Insert_loop_ends (n : nat) key value curr s b k :
  store s !! curr = Some b →
  (N.of_nat (size (pairs b)) ≤ bucketsize s)%N → 0 ≤ localDepth b →
  is_Some (pairs b !! k) →
  Z.testbit (HashKey k) (localDepth b + Z.of_nat n) = true →
  ∃ s', Insert_loop HashKey (n + 2) key value curr s = Returns s'.
Proof.
  revert s b. induction n as [|n IH]; intros s b Hb Hcap Hd Hk Hbit.
  - change (0 + 2)%nat with 2%nat. rewrite (Insert_loop_S _ _ _ _ _ b Hb).
    destruct (fits s b key) eqn:Hfits; [by eexists|].
    pose proof (split_store_lookup HashKey s curr b curr Hb) as Hb1.
    rewrite decide_True in Hb1 by done.
    rewrite (Insert_loop_S _ _ _ _ _ _ Hb1).
    replace (localDepth b + Z.of_nat 0) with (localDepth b) in Hbit by lia.
    pose proof (kept_smaller (localDepth b) (pairs b) k Hd Hk Hbit) as Hlt.
    assert (fits (split HashKey s curr b)
              (mkBucket (localDepth b + 1)
                 (kept HashKey (Z.shiftl 1 (localDepth b)) (pairs b))) key
            = true) as ->; [|by eexists].
    unfold fits. apply orb_true_iff. right. apply bool_decide_eq_true_2.
    simpl. lia.
  - change (S n + 2)%nat with (S (n + 2)).
    rewrite (Insert_loop_S _ _ _ _ _ b Hb).
    destruct (fits s b key) eqn:Hfits; [by eexists|].
    pose proof (split_store_lookup HashKey s curr b curr Hb) as Hb1.
    rewrite decide_True in Hb1 by done.
    destruct (Z.testbit (HashKey k) (localDepth b)) eqn:Hbit0.
    + pose proof (kept_smaller (localDepth b) (pairs b) k Hd Hk Hbit0) as Hlt.
      replace (n + 2)%nat with (S (n + 1)) by lia.
      rewrite (Insert_loop_S _ _ _ _ _ _ Hb1).
      assert (fits (split HashKey s curr b)
                (mkBucket (localDepth b + 1)
                   (kept HashKey (Z.shiftl 1 (localDepth b)) (pairs b))) key
              = true) as ->; [|by eexists].
      unfold fits. apply orb_true_iff. right. apply bool_decide_eq_true_2.
      simpl. lia.
    + apply (IH _ _ Hb1); simpl.
      * pose proof (filter_size_le
          (λ kv, Z.land (HashKey kv.1) (Z.shiftl 1 (localDepth b)) = 0)
          (pairs b)). unfold kept. lia.
      * lia.
      * destruct Hk as [v Hk]. exists v. by apply kept_lookup.
      * by replace (localDepth b + 1 + Z.of_nat n)
          with (localDepth b + Z.of_nat (S n)) by lia.
Qed.

(** X16: when the loop of [Insert] ends, within the [int] range, from a
    reachable state of global depth at most 30.  If the routed bucket holds
    the key or has room, [Insert] returns at once; if one of its keys has a
    hash bit set [n] positions above its local depth [d], with
    [d + n < 30], [Insert] returns within [n + 2] passes a state of global
    depth at most 30; if the bucket is full, lacks the key and none of its
    keys has a hash bit set at the [n] positions from [d] upward
    ([d + n ≤ 31]), the loop has not ended after [n] passes.  The hash of
    the new key plays no part. *)
Theorem Insert_ends_iff_separable (cap : N) s key value curr b :
  reachable HashKey cap s → GetGlobalDepth s ≤ 30 →
  vec_at (bucket_directory s) (route HashKey s key) = Some (Some curr) →
  store s !! curr = Some b →
  (fits s b key = true → ∀ fuel, ∃ s',
     Insert HashKey (S fuel) s key value = Returns s' ∧
     GetGlobalDepth s' = GetGlobalDepth s) ∧
  (∀ k (n : nat), is_Some (pairs b !! k) →
     Z.testbit (HashKey k) (localDepth b + Z.of_nat n) = true →
     localDepth b + Z.of_nat n < 30 →
     ∃ s', Insert HashKey (n + 2) s key value = Returns s' ∧
           GetGlobalDepth s' ≤ 30) ∧
  (fits s b key = false →
   ∀ n : nat, localDepth b + Z.of_nat n ≤ 31 →
   (∀ k j, is_Some (pairs b !! k) →
           localDepth b ≤ j < localDepth b + Z.of_nat n →
           Z.testbit (HashKey k) j = false) →
   ∀ fuel, (fuel ≤ n)%nat → Insert HashKey fuel s key value = OutOfFuel).
Proof.
  unfold GetGlobalDepth. intros Hr Hg Hat Hb.
  destruct (reachable_capacity HashKey cap s Hr) as [Hcap _].
  pose proof (reachable_wf HashKey cap s Hr) as Hwf.
  destruct (wf_slot s (route HashKey s key) Hwf) as (p & bp & Hat' & Hp & Hd).
  { by apply vec_at_Some in Hat as [? _]. }
  assert (p = curr) as -> by congruence.
  assert (bp = b) as -> by congruence.
  assert (∃ i : nat, bucket_directory s !! i = Some (Some curr)) as Href.
  { apply vec_at_Some in Hat as [_ Hat]. by eexists. }
  split; [|split].
  - intros Hfits fuel. eexists. split; [by eapply Insert_fits|done].
  - intros k n Hk Hbit Hn.
    destruct (Insert_loop_ends n key value curr s b k Hb (Hcap _ _ Hb)
                ltac:(lia) Hk Hbit) as [s' Hrun].
    exists s'.
    pose proof (Insert_loop_depth_bound HashKey _ _ _ _ _ _ _ Hwf Href Hb Hrun).
    split; [|lia].
    apply Insert_loop_Returns with curr; [done|done|].
    assert (wf s') as Hwf' by (eapply wf_Insert_loop; eauto).
    destruct (wf_routed HashKey s' key Hwf') as (p1 & b1 & -> & _).
    by eexists.
  - intros Hfull n Hn Hbits fuel Hfuel.
    apply Insert_loop_OutOfFuel with curr; [done|].
    apply Insert_loop_splitting with b; [done|done|lia|].
    intros k Hk j Hj. apply Hbits; [done|lia].
Qed.

Lemma split_all_referenced s curr b (i0 : nat) :
  wf s → bucket_directory s !! i0 = Some (Some curr) →
  store s !! curr = Some b →
  (∀ p : nat, (p < length (store s))%nat →
     ∃ i : nat, bucket_directory s !! i = Some (Some p)) →
  ∀ p : nat, (p < length (store (split HashKey s curr b)))%nat →
    ∃ i : nat, bucket_directory (split HashKey s curr b) !! i = Some (Some p).
Proof.
  intros Hwf Hi0 Hb Hall p Hp.
  destruct (grown_shape HashKey s curr b i0 Hwf Hi0 Hb)
    as (g1 & Hg1 & _ & _ & Hlen1 & Hsl1 & Hi01 & Hd & Hroom & _).
  assert (∀ j : nat, grown_directory s b !! j ≠ Some (Some (length (store s))))
    as Hfresh.
  { intros j Hj. destruct (Hsl1 j _ Hj) as (q & bq & ? & Hq & _).
    simplify_eq. apply lookup_lt_Some in Hq. lia. }
  pose proof (lookup_lt_Some _ _ _ Hb) as Hclt.
  assert (length (store (split HashKey s curr b)) = S (length (store s)))
    as Hlen.
  { unfold split. simpl. rewrite length_app, length_insert. simpl. lia. }
  setoid_rewrite split_directory.
  destruct (decide (p = length (store s))) as [->|Hpn].
  - destruct (split_high_slot g1 _ _ curr i0 b b b Hg1 Hlen1 Hsl1 Hi01
                Hb Hroom) as (r & Hr & Hrbit).
    exists r. apply repoint_holds; [done|done|]. by left.
  - destruct (decide (p = curr)) as [->|Hpc].
    + destruct (split_low_slot g1 _ _ curr i0 b b b Hg1 Hlen1 Hsl1 Hi01
                  Hb Hroom) as (r & Hr & Hrbit).
      exists r. apply repoint_holds; [done|done|]. right. split; [lia|done].
    + destruct (Hall p ltac:(lia)) as [i Hi]. exists i.
      apply repoint_holds; [done|done|]. right. split; [done|]. split; [|done].
      unfold grown_directory. case_bool_decide; [|done].
      rewrite lookup_app_l; [done|by eapply lookup_lt_Some].
Qed.

Lemma Insert_loop_all_referenced fuel key value curr s s' :
  wf s → (∃ i : nat, bucket_directory s !! i = Some (Some curr)) →
  Insert_loop HashKey fuel key value curr s = Returns s' →
  ((∀ p : nat, (p < length (store s))%nat →
      ∃ i : nat, bucket_directory s !! i = Some (Some p)) ∧
   Z.of_nat (length (store s)) = numBuckets s) →
  (∀ p : nat, (p < length (store s'))%nat →
     ∃ i : nat, bucket_directory s' !! i = Some (Some p)) ∧
  Z.of_nat (length (store s')) = numBuckets s'.
Proof.
  revert s. induction fuel as [|fuel IH]; intros s Hwf [i0 Hi0] Hrun [Hall Hn];
    [done|].
  simpl in Hrun. destruct (store s !! curr) as [b|] eqn:Hb; [|done].
  destruct (fits s b key).
  - injection Hrun as <-. simpl. by rewrite length_insert.
  - destruct (wf_split HashKey s curr b i0 Hwf Hi0 Hb) as [Hwf' Hcurr'].
    apply (IH _ Hwf' Hcurr' Hrun). split.
    + by eapply split_all_referenced.
    + unfold split. simpl. rewrite length_app, length_insert. simpl. lia.
Qed.

(** X17: in every reachable state every bucket that was ever made is
    still held by some directory slot (no split orphans a bucket, no
    operation frees one), and [GetNumBuckets] is the number of buckets
    made. *)
Theorem no_bucket_orphaned (cap : N) s :
  reachable HashKey cap s →
  (∀ p : nat, (p < length (store s))%nat →
     ∃ i : nat, bucket_directory s !! i = Some (Some p)) ∧
  Z.of_nat (length (store s)) = GetNumBuckets s.
Proof.
  unfold reachable, GetNumBuckets. intros Hr.
  assert (wf (@ExtendibleHash_ctor K V _ _ cap)) as Hwf by apply wf_ctor.
  assert ((∀ p : nat, (p < length (store (@ExtendibleHash_ctor K V _ _ cap)))%nat →
             ∃ i : nat, bucket_directory (@ExtendibleHash_ctor K V _ _ cap) !! i
                        = Some (Some p)) ∧
          Z.of_nat (length (store (@ExtendibleHash_ctor K V _ _ cap)))
          = numBuckets (@ExtendibleHash_ctor K V _ _ cap)) as Hinit.
  { split; [|done]. intros p Hp. simpl in Hp. exists 0%nat.
    by replace p with 0%nat by lia. }
  induction Hr as [|s0 s1 s2 Hstep _ IH]; [done|].
  apply IH; [by eapply wf_step|].
  destruct Hstep as [fuel key value s0 s1 Hrun|key r s0 s1 Hrun|key r s0 _];
    [| |done].
  - apply Insert_Returns_inv in Hrun as [[_ ->]|(curr & Hat & Hrun)]; [done|].
    apply vec_at_Some in Hat as [_ Hat].
    eapply Insert_loop_all_referenced; eauto.
  - unfold Remove in Hrun.
    destruct (vec_at _ _) as [[p|]|]; [|by simplify_eq|done].
    destruct (store s0 !! p) as [b|] eqn:Hb; [|done].
    destruct (pairs b !! key); simplify_eq; [|done].
    simpl. by rewrite length_insert.
Qed.

End Ending.

(** * The further properties at concrete tables *)

Lemma one_key_bucket :
  store one_key !! 0%nat = Some (mkBucket 0 ({[ 1 := 100 ]} : gmap Z Z)).
Proof. reflexivity. Defined.

Lemma one_key_Insert_3 :
  Insert HashKey_int 2 one_key 3 300 = Returns one_key_split.
Proof. vm_compute. reflexivity. Defined.

Lemma one_key_split_Remove_1 :
  Remove HashKey_int one_key_split 1 = Returns (true, one_key_removed).
Proof. vm_compute. reflexivity. Defined.

Lemma Remove_agrees_with_Find_witness :
  ∃ found r s',
    Find HashKey_int one_key_split 1 = Returns found ∧
    Remove HashKey_int one_key_split 1 = Returns (r, s') ∧
    (r = true ↔ is_Some found) ∧
    (r = false → s' = one_key_split).
Proof.
  apply (Remove_agrees_with_Find HashKey_int 1 one_key_split 1).
  exact one_key_split_reachable.
Defined.

Lemma Remove_keeps_other_keys_witness :
  Find HashKey_int one_key_removed 3 = Find HashKey_int one_key_split 3.
Proof.
  apply (Remove_keeps_other_keys HashKey_int one_key_split 1 true
           one_key_removed 3).
  - exact one_key_split_Remove_1.
  - lia.
Defined.

Lemma Insert_in_place_witness :
  ∃ s', Insert HashKey_int 1 one_key 1 101 = Returns s' ∧
        Find HashKey_int s' 1 = Returns (Some 101) ∧
        (∀ key', key' ≠ 1 → Find HashKey_int s' key' = Find HashKey_int one_key key') ∧
        globalDepth s' = globalDepth one_key ∧
        numBuckets s' = numBuckets one_key ∧
        bucket_directory s' = bucket_directory one_key.
Proof.
  apply (Insert_in_place HashKey_int 0 one_key 1 101 0%nat
           (mkBucket 0 {[ 1 := 100 ]})).
  - reflexivity.
  - exact one_key_bucket.
  - vm_compute. reflexivity.
Defined.

Lemma Insert_overwrite_witness :
  ∃ s' b', Insert HashKey_int 1 one_key 1 101 = Returns s' ∧
           store s' !! 0%nat = Some b' ∧
           pairs b' !! 1 = Some 101 ∧
           size (pairs b')
           = size (pairs (mkBucket 0 ({[ 1 := 100 ]} : gmap Z Z))) ∧
           localDepth b' = localDepth (mkBucket 0 ({[ 1 := 100 ]} : gmap Z Z)).
Proof.
  apply (Insert_overwrite HashKey_int 0 one_key 1 101 0%nat
           (mkBucket 0 {[ 1 := 100 ]}) 100).
  - reflexivity.
  - exact one_key_bucket.
  - vm_compute. reflexivity.
Defined.

Lemma double_directory_copies_witness :
  length (double_directory [Some 0%nat; Some 1%nat]) = 4%nat ∧
  double_directory [Some 0%nat; Some 1%nat] !! 1%nat = Some (Some 1%nat) ∧
  double_directory [Some 0%nat; Some 1%nat] !! 3%nat = Some (Some 1%nat).
Proof.
  apply (double_directory_copies [Some 0%nat; Some 1%nat] 1). simpl. lia.
Defined.

Lemma slots_alias_by_low_bits_witness :
  bucket_directory one_key_split !! 1%nat = Some (Some 0%nat) ↔
  Z.of_nat 1 mod 2 ^ 1 = Z.of_nat 0 mod 2 ^ 1.
Proof.
  apply (slots_alias_by_low_bits HashKey_int 1 one_key_split 0 1 0%nat
           (mkBucket 1 {[ 3 := 300 ]})).
  - exact one_key_split_reachable.
  - reflexivity.
  - reflexivity.
  - simpl. lia.
Defined.

Lemma GetNumBuckets_bounds_witness :
  1 ≤ GetNumBuckets one_key_split ≤ 2 ^ GetGlobalDepth one_key_split.
Proof.
  apply (GetNumBuckets_bounds HashKey_int 1 one_key_split).
  exact one_key_split_reachable.
Defined.

Lemma Insert_keeps_entries_witness :
  stored one_key_split 3 300 ∧
  ∀ k v, k ≠ 3 → stored one_key k v → stored one_key_split k v.
Proof.
  apply (Insert_keeps_entries HashKey_int 1 one_key 2 3 300 one_key_split).
  - exact one_key_reachable.
  - exact one_key_Insert_3.
Defined.

Lemma Insert_defined_witness :
  Insert HashKey_int 2 one_key 3 300 = OutOfFuel ∨
  ∃ s', Insert HashKey_int 2 one_key 3 300 = Returns s' ∧
        GetGlobalDepth s' ≤ 30.
Proof.
  apply (Insert_defined HashKey_int 1 one_key 2 3 300 0%nat
           (mkBucket 0 {[ 1 := 100 ]})).
  - exact one_key_reachable.
  - simpl. lia.
  - reflexivity.
  - exact one_key_bucket.
  - simpl. lia.
Defined.

Lemma buckets_within_capacity_witness :
  bucketsize one_key_split = 1%N ∧
  (N.of_nat (size (pairs (mkBucket 1 ({[ 3%Z := 300%Z ]} : gmap Z Z)))) ≤ 1)%N.
Proof.
  apply (buckets_within_capacity HashKey_int 1 one_key_split 0%nat
           (mkBucket 1 {[ 3 := 300 ]})).
  - exact one_key_split_reachable.
  - reflexivity.
Defined.

Lemma Remove_then_Insert_witness :
  ∃ s2, Insert HashKey_int 1 one_key_removed 1 101 = Returns s2 ∧
        Find HashKey_int s2 1 = Returns (Some 101) ∧
        GetGlobalDepth s2 = GetGlobalDepth one_key_split ∧
        GetNumBuckets s2 = GetNumBuckets one_key_split.
Proof.
  apply (Remove_then_Insert HashKey_int 1 one_key_split 1 101
           one_key_removed 0).
  - exact one_key_split_reachable.
  - exact one_key_split_Remove_1.
Defined.

Lemma Insert_counts_splits_witness :
  ∃ b', store one_key_split !! 0%nat = Some b' ∧
        GetNumBuckets one_key_split - GetNumBuckets one_key
        = localDepth b' - 0 ∧
        (GetNumBuckets one_key_split = GetNumBuckets one_key ↔
         fits one_key (mkBucket 0 {[ 1 := 100 ]}) 3 = true).
Proof.
  apply (Insert_counts_splits HashKey_int 2 one_key 3 300 0%nat
           (mkBucket 0 {[ 1 := 100 ]}) one_key_split).
  - reflexivity.
  - exact one_key_bucket.
  - exact one_key_Insert_3.
Defined.

Lemma Insert_then_Find_exact_witness :
  ∃ b', store one_key_split !! 0%nat = Some b' ∧
    Find HashKey_int one_key_split 3 =
    Returns (if decide (HashKey_int 3 mod 2 ^ localDepth b'
                        = HashKey_int 3 mod 2 ^ 0)
             then Some 300 else None).
Proof.
  apply (Insert_then_Find_exact HashKey_int 1 one_key 2 3 300 one_key_split
           0%nat (mkBucket 0 {[ 1 := 100 ]})).
  - exact one_key_reachable.
  - reflexivity.
  - exact one_key_bucket.
  - exact one_key_Insert_3.
Defined.

Lemma Insert_keeps_other_keys_witness :
  Find HashKey_int one_key_split 1 = Find HashKey_int one_key 1.
Proof.
  apply (Insert_keeps_other_keys HashKey_int 1 one_key 2 3 300
           one_key_split 1).
  - exact one_key_reachable.
  - exact one_key_Insert_3.
  - lia.
Defined.

Lemma Insert_ends_iff_separable_witness :
  (fits one_key (mkBucket 0 {[ 1 := 100 ]}) 3 = true → ∀ fuel, ∃ s',
     Insert HashKey_int (S fuel) one_key 3 300 = Returns s' ∧
     GetGlobalDepth s' = GetGlobalDepth one_key) ∧
  (∀ k (n : nat),
     is_Some (pairs (mkBucket 0 ({[ 1 := 100 ]} : gmap Z Z)) !! k) →
     Z.testbit (HashKey_int k)
       (localDepth (mkBucket 0 ({[ 1 := 100 ]} : gmap Z Z)) + Z.of_nat n)
     = true →
     localDepth (mkBucket 0 ({[ 1 := 100 ]} : gmap Z Z)) + Z.of_nat n < 30 →
     ∃ s', Insert HashKey_int (n + 2) one_key 3 300 = Returns s' ∧
           GetGlobalDepth s' ≤ 30) ∧
  (fits one_key (mkBucket 0 {[ 1 := 100 ]}) 3 = false →
   ∀ n : nat,
   localDepth (mkBucket 0 ({[ 1 := 100 ]} : gmap Z Z)) + Z.of_nat n ≤ 31 →
   (∀ k j, is_Some (pairs (mkBucket 0 ({[ 1 := 100 ]} : gmap Z Z)) !! k) →
           localDepth (mkBucket 0 ({[ 1 := 100 ]} : gmap Z Z)) ≤ j
           < localDepth (mkBucket 0 ({[ 1 := 100 ]} : gmap Z Z)) + Z.of_nat n →
           Z.testbit (HashKey_int k) j = false) →
   ∀ fuel, (fuel ≤ n)%nat → Insert HashKey_int fuel one_key 3 300 = OutOfFuel).
Proof.
  apply (Insert_ends_iff_separable HashKey_int 1 one_key 3 300 0%nat
           (mkBucket 0 {[ 1 := 100 ]})).
  - exact one_key_reachable.
  - simpl. lia.
  - reflexivity.
  - exact one_key_bucket.
Defined.

Lemma no_bucket_orphaned_witness :
  (∀ p : nat, (p < length (store one_key_split))%nat →
     ∃ i : nat, bucket_directory one_key_split !! i = Some (Some p)) ∧
  Z.of_nat (length (store one_key_split)) = GetNumBuckets one_key_split.
Proof.
  apply (no_bucket_orphaned HashKey_int 1 one_key_split).
  exact one_key_split_reachable.
Defined.
